(** * pwall/pdf: the PDF object encoder

    A shallow embedding of the Go package [pdf] (object model, the
    [encodeState] writer and the document driver [Encode]) together with
    the properties of its output that the package documentation states.

    Go strings are [string]; byte slices and the bytes that reach a writer
    are [list ascii]; [int], [int64] and [rune] values are [Z]. *)

From Stdlib Require Import ZArith Ascii String DecimalString.
From Stdlib Require DecimalPos DecimalZ.
From stdpp Require Import gmap strings list fin_maps.

Local Open Scope Z_scope.
Local Open Scope list_scope.

Abbreviation bytes := (list ascii).

(** [[]byte(s)] *)
Definition str (s : string) : bytes := list_ascii_of_string s.

Definition LF : ascii := "010"%char.

Definition byte_val (c : ascii) : Z := Z.of_N (N_of_ascii c).
Definition byte_of (z : Z) : ascii := ascii_of_N (Z.to_N z).

(** ** Errors

    [io.EOF] and [io.ErrShortWrite] are the two sentinel errors of package
    [io] this code can meet; every other error comes from the writer the
    caller supplied and is opaque to the encoder. *)
Inductive error : Type :=
| io_EOF
| io_ErrShortWrite
| SinkError (code : nat).

Global Instance error_eq_dec : EqDecision error.
Proof. solve_decision. Defined.

(** What a call leaves behind: it returns its [error] result ([nil] is
    [None]), or it panics. *)
Inductive result : Type :=
| Done (err : option error)
| Panic.

(** ** The Go [int]: 64 bits, wrapping on overflow. *)
Definition int_wrap (z : Z) : Z := (z + 2 ^ 63) `mod` 2 ^ 64 - 2 ^ 63.

(** ** Package [fmt] *)

Module fmt.

(** [%v] of a [bool]. *)
Definition bool_v (b : bool) : bytes := if b then str "true" else str "false".

(** [%v] of an [int]: base 10 with a leading [-] when negative. *)
Definition int_v (i : Z) : bytes := str (NilZero.string_of_int (Z.to_int i)).

Definition upper_hex_digit (d : Z) : ascii :=
  nth (Z.to_nat d) (str "0123456789ABCDEF") "0"%char.

Fixpoint upper_hex_go (fuel : nat) (n : Z) (acc : bytes) : bytes :=
  match fuel with
  | O => acc
  | S fuel' =>
      let acc' := upper_hex_digit (n `mod` 16) :: acc in
      if n <? 16 then acc' else upper_hex_go fuel' (n / 16) acc'
  end.

(** [%X] of an integer: upper-case hexadecimal with no padding, as many
    digits as the value needs. *)
Definition int_X (n : Z) : bytes :=
  if n <? 0
  then "-"%char :: upper_hex_go (S (Z.to_nat (Z.log2 (- n)))) (- n) []
  else upper_hex_go (S (Z.to_nat (Z.log2 n))) n [].

(** [%X] of a byte slice: two upper-case digits for each byte. *)
Definition bytes_X (b : bytes) : bytes :=
  flat_map (fun c => [upper_hex_digit (byte_val c / 16);
                      upper_hex_digit (byte_val c `mod` 16)]) b.

End fmt.

(** ** Package [unicode/utf8] *)

Module utf8.

Definition RuneError : Z := 65533.

Definition cont (c : Z) : bool := (128 <=? c) && (c <=? 191).

(** [DecodeRuneInString]: the rune at the head of [s] and its width in
    bytes; ill-formed input decodes to [RuneError] of width 1. *)
Definition DecodeRune (s : list Z) : Z * nat :=
  match s with
  | [] => (RuneError, 0%nat)
  | s0 :: t =>
      if s0 <? 128 then (s0, 1%nat)
      else if (194 <=? s0) && (s0 <=? 223) then
        match t with
        | s1 :: _ =>
            if cont s1 then ((s0 - 192) * 64 + (s1 - 128), 2%nat)
            else (RuneError, 1%nat)
        | _ => (RuneError, 1%nat)
        end
      else if (224 <=? s0) && (s0 <=? 239) then
        match t with
        | s1 :: s2 :: _ =>
            let lo := if s0 =? 224 then 160 else 128 in
            let hi := if s0 =? 237 then 159 else 191 in
            if (lo <=? s1) && (s1 <=? hi) && cont s2
            then ((s0 - 224) * 4096 + (s1 - 128) * 64 + (s2 - 128), 3%nat)
            else (RuneError, 1%nat)
        | _ => (RuneError, 1%nat)
        end
      else if (240 <=? s0) && (s0 <=? 244) then
        match t with
        | s1 :: s2 :: s3 :: _ =>
            let lo := if s0 =? 240 then 144 else 128 in
            let hi := if s0 =? 244 then 143 else 191 in
            if (lo <=? s1) && (s1 <=? hi) && cont s2 && cont s3
            then ((s0 - 240) * 262144 + (s1 - 128) * 4096
                  + (s2 - 128) * 64 + (s3 - 128), 4%nat)
            else (RuneError, 1%nat)
        | _ => (RuneError, 1%nat)
        end
      else (RuneError, 1%nat)
  end.

(** The runes a [for _, r := range s] loop visits.  [skip] counts the
    continuation bytes of the rune just decoded that are still ahead. *)
Fixpoint range_go (skip : nat) (s : list Z) : list Z :=
  match s with
  | [] => []
  | c :: t =>
      match skip with
      | S k => range_go k t
      | O => let '(r, width) := DecodeRune (c :: t) in
             r :: range_go (Nat.pred width) t
      end
  end.

Definition range (s : string) : list Z := range_go 0 (map byte_val (str s)).

(** [EncodeRune] / [AppendRune]. *)
Definition EncodeRune (r : Z) : bytes :=
  let r := if (r <? 0) || (1114111 <? r) || ((55296 <=? r) && (r <=? 57343))
           then RuneError else r in
  if r <? 128 then [byte_of r]
  else if r <? 2048 then [byte_of (192 + r / 64); byte_of (128 + r `mod` 64)]
  else if r <? 65536 then
    [byte_of (224 + r / 4096); byte_of (128 + (r / 64) `mod` 64);
     byte_of (128 + r `mod` 64)]
  else
    [byte_of (240 + r / 262144); byte_of (128 + (r / 4096) `mod` 64);
     byte_of (128 + (r / 64) `mod` 64); byte_of (128 + r `mod` 64)].

End utf8.

(** ** Package [io]

    A writer is a state [W] with a [Write] method.  Writers are taken to
    honour the [io.Writer] contract: [Write] reports [0 <= n <= len(p)], and
    [n < len(p)] only together with an error; [accepted] reads a reported
    count that way. *)

Module io.

Record Writer (W : Type) : Type :=
  { Write : bytes -> W -> W * (nat * option error) }.
Arguments Write {W} _ _ _.

Definition accepted (p : bytes) (r : nat * option error) : nat :=
  match r.2 with
  | None => length p
  | Some _ => Nat.min r.1 (length p)
  end.

(** [io.WriteString(w, s)] *)
Definition WriteString {W} (ops : Writer W) (w : W) (s : bytes)
  : W * (nat * option error) :=
  Write ops s w.

(** The chunks [io.Copy] moves from a reader that delivers as much as
    the copy buffer takes: [size] bytes at a time. *)
Fixpoint chunks (fuel size : nat) (data : bytes) : list bytes :=
  match fuel, data with
  | _, [] | O, _ => []
  | S fuel', _ => take size data :: chunks fuel' size (drop size data)
  end.

Fixpoint copy_chunks {S} (write : bytes -> S -> S * (nat * option error))
    (cs : list bytes) (dst : S) (written : Z) : S * (Z * option error) :=
  match cs with
  | [] => (dst, (written, None))
  | c :: cs' =>
      let '(dst1, r) := write c dst in
      match r.2 with
      | Some e => (dst1, (written + Z.of_nat (accepted c r), Some e))
      | None => copy_chunks write cs' dst1 (written + Z.of_nat (length c))
      end
  end.

(** [io.CopyN(dst, src, n)] from a reader with the bytes [src] left to
    deliver.  The copy reads through a [LimitedReader] of [n] bytes into
    a buffer of [min(32768, max(n, 1))] bytes and writes every chunk it
    read; reaching the end of [src] early is [io.EOF]. *)
Definition CopyN {S} (write : bytes -> S -> S * (nat * option error))
    (dst : S) (src : bytes) (n : Z) : S * (Z * option error) :=
  let limited := take (Z.to_nat n) src in
  let size := Nat.min 32768 (Nat.max (Z.to_nat n) 1) in
  let '(dst1, (written, e)) :=
    copy_chunks write (chunks (length limited) size limited) dst 0 in
  if written =? n then (dst1, (n, None))
  else if (written <? n) && bool_decide (e = None) then (dst1, (written, Some io_EOF))
  else (dst1, (written, e)).

End io.

(** ** Package [bufio]

    A [bufio.Writer] of the default size in front of a writer [W]: the
    pending bytes [buf] (the Go [b.buf[:b.n]]) and the sticky error. *)

Module bufio.

Definition defaultBufSize : nat := 4096.

Record Writer (W : Type) : Type :=
  mk { wr : W; buf : bytes; err : option error }.
Arguments mk {W} _ _ _.
Arguments wr {W} _.
Arguments buf {W} _.
Arguments err {W} _.

Definition NewWriter {W} (w : W) : Writer W := mk w [] None.

Definition Available {W} (b : Writer W) : nat :=
  (defaultBufSize - length (buf b))%nat.

Definition Flush {W} (ops : io.Writer W) (b : Writer W)
  : Writer W * option error :=
  match err b with
  | Some e => (b, Some e)
  | None =>
      match buf b with
      | [] => (b, None)
      | _ =>
          let '(w', r) := io.Write ops (buf b) (wr b) in
          match r.2 with
          | Some e => (mk w' (drop (io.accepted (buf b) r) (buf b)) (Some e), Some e)
          | None => (mk w' [] None, None)
          end
      end
  end.

(** A write larger than the free space, with nothing buffered, goes
    straight to the underlying writer. *)
Definition direct {W} (ops : io.Writer W) (p : bytes) (b : Writer W) (nn : nat)
  : Writer W * (nat * option error) :=
  let '(w', r) := io.Write ops p (wr b) in
  match r.2 with
  | Some e => (mk w' (buf b) (Some e), ((nn + io.accepted p r)%nat, Some e))
  | None => (mk w' (buf b) None, ((nn + length p)%nat, None))
  end.

Definition Write {W} (ops : io.Writer W) (p : bytes) (b : Writer W)
  : Writer W * (nat * option error) :=
  match err b with
  | Some e => (b, (0%nat, Some e))
  | None =>
      if (length p <=? Available b)%nat
      then (mk (wr b) (buf b ++ p) None, (length p, None))
      else
        match buf b with
        | [] => direct ops p b 0
        | _ =>
            let n := Available b in
            let '(b1, e) := Flush ops (mk (wr b) (buf b ++ take n p) None) in
            match e with
            | Some e => (b1, (n, Some e))
            | None =>
                let p' := drop n p in
                if (length p' <=? Available b1)%nat
                then (mk (wr b1) (buf b1 ++ p') None, (length p, None))
                else direct ops p' b1 n
            end
        end
  end.

Definition WriteString {W} (ops : io.Writer W) (s : bytes) (b : Writer W)
  : Writer W * (nat * option error) :=
  Write ops s b.

Definition WriteByte {W} (ops : io.Writer W) (c : ascii) (b : Writer W)
  : Writer W * option error :=
  match err b with
  | Some e => (b, Some e)
  | None =>
      if (Available b =? 0)%nat
      then
        let '(b1, e) := Flush ops b in
        match e with
        | Some _ => (b1, err b1)
        | None => (mk (wr b1) (buf b1 ++ [c]) (err b1), None)
        end
      else (mk (wr b) (buf b ++ [c]) None, None)
  end.

Definition WriteRune {W} (ops : io.Writer W) (r : Z) (b : Writer W)
  : Writer W * (nat * option error) :=
  if (0 <=? r) && (r <? 128)
  then
    let '(b1, e) := WriteByte ops (byte_of r) b in
    match e with
    | Some _ => (b1, (0%nat, e))
    | None => (b1, (1%nat, None))
    end
  else
    match err b with
    | Some e => (b, (0%nat, Some e))
    | None =>
        let enc := utf8.EncodeRune r in
        if (Available b <? 4)%nat
        then
          let '(b1, e) := Flush ops b in
          match e with
          | Some _ => (b1, (0%nat, err b1))
          | None => (mk (wr b1) (buf b1 ++ enc) (err b1), (length enc, None))
          end
        else (mk (wr b) (buf b ++ enc) None, (length enc, None))
    end.

End bufio.

(** ** Package [strings]: the [Replacer] of [LiteralString.encode]

    [strings.NewReplacer("(", `\(`, ")", `\)`, `\`, `\\`)] maps single bytes
    to strings, so it is the byte-to-string replacer: [WriteString] sends
    every run of bytes without a replacement in one write and every
    replacement in a write of its own, the runs with [WriteString] and the
    replacements with [Write], and stops at the first error. *)

Module strings.

Definition replacement (c : ascii) : option bytes :=
  if decide (c = "("%char) then Some (str "\(")
  else if decide (c = ")"%char) then Some (str "\)")
  else if decide (c = "\"%char) then Some (str "\\")
  else None.

Fixpoint Replacer_go {S}
    (write writeString : bytes -> S -> S * (nat * option error))
    (last s : bytes) (w : S) (n : nat) : S * (nat * option error) :=
  match s with
  | [] =>
      match last with
      | [] => (w, (n, None))
      | _ => let '(w1, (nw, e)) := writeString last w in (w1, ((n + nw)%nat, e))
      end
  | c :: s' =>
      match replacement c with
      | None => Replacer_go write writeString (last ++ [c]) s' w n
      | Some rep =>
          let '(w1, (n1, e1)) :=
            match last with
            | [] => (w, (n, None))
            | _ => let '(w1, (nw, e)) := writeString last w in
                   (w1, ((n + nw)%nat, e))
            end in
          match e1 with
          | Some _ => (w1, (n1, e1))
          | None =>
              let '(w2, (nw, e2)) := write rep w1 in
              match e2 with
              | Some _ => (w2, ((n1 + nw)%nat, e2))
              | None => Replacer_go write writeString [] s' w2 (n1 + nw)%nat
              end
          end
      end
  end.

(** [r.WriteString(w, s)] for a [w] with the methods [write] ([w.Write])
    and [writeString] ([w.WriteString]). *)
Definition Replacer_WriteString {S}
    (write writeString : bytes -> S -> S * (nat * option error)) (w : S) (s : string)
  : S * (nat * option error) :=
  Replacer_go write writeString [] (str s) w 0%nat.

End strings.

(** * The encoder *)

(** ** [encodeState] *)

Record encodeState (W : Type) : Type :=
  mkState {
    w : bufio.Writer W;
    err : option error;
    nextName : Z;
    names : option (gmap string Z)
  }.
Arguments mkState {W} _ _ _ _.
Arguments w {W} _.
Arguments err {W} _.
Arguments nextName {W} _.
Arguments names {W} _.

Section encodeState_methods.

Context {W : Type} (ops : io.Writer W).

Definition Close (s : encodeState W) : encodeState W * option error :=
  match err s with
  | Some e => (s, Some e)
  | None =>
      let '(b, e) := bufio.Flush ops (w s) in
      (mkState b e (nextName s) (names s), e)
  end.

Definition objName (name : string) (s : encodeState W) : encodeState W * Z :=
  let m := match names s with
           | None => ∅
           | Some m => m
           end in
  match m !! name with
  | Some n => (mkState (w s) (err s) (nextName s) (Some m), n)
  | None =>
      let n := nextName s in
      (mkState (w s) (err s) (int_wrap (n + 1)) (Some (<[name := n]> m)), n)
  end.

Definition Write (buf : bytes) (s : encodeState W)
  : encodeState W * (nat * option error) :=
  match err s with
  | Some e => (s, (0%nat, Some e))
  | None =>
      let '(b, (n, e)) := bufio.Write ops buf (w s) in
      (mkState b e (nextName s) (names s), (n, e))
  end.

Definition WriteByte (c : ascii) (s : encodeState W)
  : encodeState W * option error :=
  match err s with
  | Some e => (s, Some e)
  | None =>
      let '(b, e) := bufio.WriteByte ops c (w s) in
      (mkState b e (nextName s) (names s), e)
  end.

Definition WriteRune (r : Z) (s : encodeState W)
  : encodeState W * (nat * option error) :=
  match err s with
  | Some e => (s, (0%nat, Some e))
  | None =>
      let '(b, (n, e)) := bufio.WriteRune ops r (w s) in
      (mkState b e (nextName s) (names s), (n, e))
  end.

Definition WriteString (text : bytes) (s : encodeState W)
  : encodeState W * (nat * option error) :=
  match err s with
  | Some e => (s, (0%nat, Some e))
  | None =>
      let '(b, (n, e)) := bufio.WriteString ops text (w s) in
      (mkState b e (nextName s) (names s), (n, e))
  end.

End encodeState_methods.

(** [*encodeState] is itself an [io.Writer]; this is what the nested
    [EncodeObject(s, obj)] calls write to. *)
Definition encodeState_Writer {W} (ops : io.Writer W) : io.Writer (encodeState W) :=
  {| io.Write := Write ops |}.

(** ** [Object] and [EncodeObject]

    A non-nil [Object] interface value is whatever has an [encode] method;
    [Encoder] is the type of that method, for every writer the state may
    sit on.  [None] is the nil interface. *)
Definition Encoder : Type :=
  forall W : Type, io.Writer W -> encodeState W -> encodeState W * result.

Definition EncodeObject_iface {W} (ops : io.Writer W) (w0 : W) (obj : option Encoder)
  : W * result :=
  match obj with
  | None =>
      let '(w1, (_, e)) := io.WriteString ops w0 (str "null") in
      (w1, Done e)
  | Some obj_encode =>
      let ew := mkState (bufio.NewWriter w0) None 0 None in
      let '(ew1, r) := obj_encode W ops ew in
      (* err = obj.encode(&ew); if err != nil { return err }; return ew.err *)
      let ret := match r with
                 | Done None => Done (err ew1)
                 | _ => r
                 end in
      (* the deferred function *)
      let '(ew2, cerr) := Close ops ew1 in
      (bufio.wr (w ew2),
       match ret with
       | Done None => Done cerr
       | _ => ret
       end)
  end.

(** ** The [encode] methods

    Each takes the receiver's data and yields the method.  Elements of
    containers are interface values ([option Encoder]); the key of a [Dict]
    entry is a [Name]. *)

Section encode_methods.

Context {W : Type} (ops : io.Writer W).

Definition Boolean_encode (b : bool) (s : encodeState W) : encodeState W * result :=
  let '(s1, (_, e)) := Write ops (fmt.bool_v b) s in
  (s1, Done e).

Definition Integer_encode (i : Z) (s : encodeState W) : encodeState W * result :=
  let '(s1, (_, e)) := Write ops (fmt.int_v i) s in
  (s1, Done e).

(** A [Real] is given by [text], what [%#f] makes of the [float64]. *)
Definition Real_encode (text : bytes) (s : encodeState W) : encodeState W * result :=
  let '(s1, (_, e)) := Write ops text s in
  (s1, Done e).

Definition LiteralString_encode (text : string) (s : encodeState W)
  : encodeState W * result :=
  let '(s1, _) := WriteByte ops "("%char s in
  let '(s2, _) := strings.Replacer_WriteString (Write ops) (WriteString ops) s1 text in
  let '(s3, _) := WriteByte ops ")"%char s2 in
  (s3, Done None).

Definition HexString_encode (b : bytes) (s : encodeState W) : encodeState W * result :=
  let '(s1, (_, e)) := Write ops (str "<" ++ fmt.bytes_X b ++ str ">") s in
  (s1, Done e).

Fixpoint Name_encode_loop (rs : list Z) (s : encodeState W) : encodeState W * result :=
  match rs with
  | [] => (s, Done None)
  | r :: rs' =>
      if (r <? 33) || (126 <? r)
      then
        let '(s1, (_, e)) := Write ops (str "#" ++ fmt.int_X r) s in
        match e with
        | Some _ => (s1, Done e)
        | None => Name_encode_loop rs' s1
        end
      else if r =? 35
      then
        let '(s1, (_, e)) := WriteString ops (str "#23") s in
        match e with
        | Some _ => (s1, Done e)
        | None => Name_encode_loop rs' s1
        end
      else
        let '(s1, (_, e)) := WriteRune ops r s in
        match e with
        | Some _ => (s1, Done e)
        | None => Name_encode_loop rs' s1
        end
  end.

Definition Name_encode (n : string) (s : encodeState W) : encodeState W * result :=
  let '(s1, _) := WriteByte ops "/"%char s in
  Name_encode_loop (utf8.range n) s1.

Fixpoint Array_encode_loop (spacing : bytes) (a : list (option Encoder))
    (s : encodeState W) : encodeState W * result :=
  match a with
  | [] => (s, Done None)
  | obj :: a' =>
      let '(s1, (_, e)) := WriteString ops spacing s in
      match e with
      | Some _ => (s1, Done e)
      | None =>
          let '(s2, r) := EncodeObject_iface (encodeState_Writer ops) s1 obj in
          match r with
          | Done None => Array_encode_loop (str " ") a' s2
          | _ => (s2, r)
          end
      end
  end.

Definition Array_encode (a : list (option Encoder)) (s : encodeState W)
  : encodeState W * result :=
  let '(s1, _) := WriteByte ops "["%char s in
  let '(s2, r) := Array_encode_loop [] a s1 in
  match r with
  | Done None =>
      let '(s3, _) := WriteByte ops "]"%char s2 in
      (s3, Done None)
  | _ => (s2, r)
  end.

End encode_methods.

(** The methods as interface values. *)
Definition Integer_obj (i : Z) : option Encoder :=
  Some (fun W ops => Integer_encode ops i).
Definition Name_obj (n : string) : option Encoder :=
  Some (fun W ops => Name_encode ops n).

Section encode_Dict.

Context {W : Type} (ops : io.Writer W).

(** The entries come in the order the [range] over the map yields them. *)
Fixpoint Dict_encode_loop (d : list (string * option Encoder))
    (s : encodeState W) : encodeState W * result :=
  match d with
  | [] => (s, Done None)
  | (k, v) :: d' =>
      let '(s1, _) := WriteByte ops LF s in
      let '(s2, r) := EncodeObject_iface (encodeState_Writer ops) s1 (Name_obj k) in
      match r with
      | Done None =>
          let '(s3, _) := WriteByte ops " "%char s2 in
          let '(s4, r) := EncodeObject_iface (encodeState_Writer ops) s3 v in
          match r with
          | Done None => Dict_encode_loop d' s4
          | _ => (s4, r)
          end
      | _ => (s2, r)
      end
  end.

Definition Dict_encode (d : list (string * option Encoder)) (s : encodeState W)
  : encodeState W * result :=
  let '(s1, _) := WriteString ops (str "<<") s in
  let '(s2, r) := Dict_encode_loop d s1 in
  match r with
  | Done None =>
      let '(s3, _) := WriteString ops (LF :: str ">>") s2 in
      (s3, Done None)
  | _ => (s2, r)
  end.

End encode_Dict.

Definition Dict_obj (d : list (string * option Encoder)) : option Encoder :=
  Some (fun W ops => Dict_encode ops d).

Section encode_rest.

Context {W : Type} (ops : io.Writer W).

(** [Data] holds the bytes the stream's reader has left to deliver. *)
Definition Stream_encode (Length : Z) (Data : bytes) (s : encodeState W)
  : encodeState W * result :=
  let '(s1, r) :=
    EncodeObject_iface (encodeState_Writer ops) s
      (Dict_obj [("Length"%string, Integer_obj Length)]) in
  match r with
  | Done None =>
      let '(s2, _) := WriteString ops (LF :: str "stream" ++ [LF]) s1 in
      let '(s3, (_, e)) := io.CopyN (Write ops) s2 Data Length in
      match e with
      | Some _ => (s3, Done e)
      | None =>
          let '(s4, _) := WriteString ops (LF :: str "endstream" ++ [LF]) s3 in
          (s4, Done None)
      end
  | _ => (s1, r)
  end.

(** [i.Object.encode(s)] is a method call on an interface value: on the
    nil interface it panics. *)
Definition Indirect_encode (Name : string) (Object : option Encoder)
    (s : encodeState W) : encodeState W * result :=
  let '(s1, n) := objName Name s in
  let '(s2, r) := Integer_encode ops n s1 in
  match r with
  | Done None =>
      let '(s3, _) := WriteString ops (str " 0 obj" ++ [LF]) s2 in
      match Object with
      | None => (s3, Panic)
      | Some Object_encode =>
          let '(s4, r) := Object_encode W ops s3 in
          match r with
          | Done None =>
              let '(s5, _) := WriteString ops (LF :: str "endobj" ++ [LF]) s4 in
              (s5, Done None)
          | _ => (s4, r)
          end
      end
  | _ => (s2, r)
  end.

Definition Reference_encode (r : string) (s : encodeState W)
  : encodeState W * result :=
  let '(s1, n) := objName r s in
  let '(s2, res) := Integer_encode ops n s1 in
  match res with
  | Done None =>
      let '(s3, _) := WriteString ops (str " 0 R") s2 in
      (s3, Done None)
  | _ => (s2, res)
  end.

End encode_rest.

(** ** The values

    The variants of [Object] the package declares, and [Nil] for the nil
    interface.  A [Dict] lists its entries in the order the map iteration
    visits them.  A [Real] carries the text that [%#f] yields for its
    [float64]; the formatting of floating-point numbers is not modelled. *)
Inductive Object : Type :=
| Nil
| Boolean (b : bool)
| Integer (i : Z)
| Real (text : bytes)
| LiteralString (text : string)
| HexString (b : bytes)
| Name (n : string)
| Array (a : list Object)
| Dict (d : list (string * Object))
| Stream (Length : Z) (Data : bytes)
| Indirect (Name : string) (Object : Object)
| Reference (r : string).

(** [encode o] is the method the dynamic dispatch [o.encode] selects. *)
Fixpoint encode (o : Object) : Encoder :=
  let iface := fun o' : Object =>
    match o' with
    | Nil => None
    | _ => Some (encode o')
    end in
  match o with
  | Nil => fun W ops s => (s, Panic)
  | Boolean b => fun W ops => Boolean_encode ops b
  | Integer i => fun W ops => Integer_encode ops i
  | Real text => fun W ops => Real_encode ops text
  | LiteralString text => fun W ops => LiteralString_encode ops text
  | HexString b => fun W ops => HexString_encode ops b
  | Name n => fun W ops => Name_encode ops n
  | Array a => fun W ops => Array_encode ops (map iface a)
  | Dict d => fun W ops => Dict_encode ops (map (fun '(k, v) => (k, iface v)) d)
  | Stream Length Data => fun W ops => Stream_encode ops Length Data
  | Indirect name obj => fun W ops => Indirect_encode ops name (iface obj)
  | Reference r => fun W ops => Reference_encode ops r
  end.

Definition iface (o : Object) : option Encoder :=
  match o with
  | Nil => None
  | _ => Some (encode o)
  end.

Definition EncodeObject {W} (ops : io.Writer W) (w0 : W) (obj : Object) : W * result :=
  EncodeObject_iface ops w0 (iface obj).

(** ** The document driver (pdf.go) *)

Definition Version : string := "1.7".

Record PDF : Type := { Body : list (string * Object) }.

(** Modelled from the spec: [Encode] writes the header to [bw], which
    pdf.go does not declare.  The spec puts the header line in front of
    the objects in the document output, so [bw] is the writer [w] itself. *)
Definition bw {W : Type} (w0 : W) : W := w0.

Section Encode.

Context {W : Type} (ops : io.Writer W).

Fixpoint Encode_loop (body : list (string * Object)) (w0 : W) : W * result :=
  match body with
  | [] => (w0, Done None)
  | (name, obj) :: body' =>
      let '(w1, r) := EncodeObject ops w0 (Indirect name obj) in
      match r with
      | Done None => Encode_loop body' w1
      | _ => (w1, r)
      end
  end.

(** [p] is a pointer: dereferencing [nil] for [p.Body] panics. *)
Definition Encode (w0 : W) (p : option PDF) : W * result :=
  let '(w1, (_, e)) :=
    io.Write ops (str "%PDF-" ++ str Version ++ [LF]) (bw w0) in
  match e with
  | Some _ => (w1, Done e)
  | None =>
      match p with
      | None => (w1, Panic)
      | Some p =>
          let '(w2, r) := Encode_loop (Body p) w1 in
          match r with
          | Done None =>
              let '(w3, (_, e)) := io.WriteString ops w2 (str "%%EOF") in
              (w3, Done e)
          | _ => (w2, r)
          end
      end
  end.

End Encode.

(** ** A writer that never fails: [bytes.Buffer] *)

Definition Buffer : io.Writer bytes :=
  {| io.Write := fun p out => (out ++ p, (length p, None)) |}.


(** * Vocabulary of the statements *)

(** ** Writers that accept everything

    A [View] of a writer picks the states it is used in ([good]) and reads
    off the bytes it has taken so far ([content]).  The writer is
    [reliable] under a view when every write in a good state succeeds and
    appends its bytes. *)

Record View (W : Type) : Type :=
  { good : W -> Prop;
    content : W -> bytes }.
Arguments good {W} _ _.
Arguments content {W} _ _.

Definition reliable {W : Type} (ops : io.Writer W) (V : View W) : Prop :=
  forall p w0, good V w0 ->
    exists w1 n, io.Write ops p w0 = (w1, (n, None))
                 /\ good V w1 /\ content V w1 = content V w0 ++ p.

Definition Buffer_view : View bytes :=
  {| good := fun _ => True; content := fun out => out |}.

(** A [bufio.Writer] without a sticky error on a good writer; its content
    counts the bytes still buffered. *)
Definition bufio_view {W : Type} (V : View W) : View (bufio.Writer W) :=
  {| good := fun b => bufio.err b = None /\ good V (bufio.wr b);
     content := fun b => content V (bufio.wr b) ++ bufio.buf b |}.

Definition state_view {W : Type} (V : View W) : View (encodeState W) :=
  {| good := fun s => err s = None /\ good (bufio_view V) (w s);
     content := fun s => content (bufio_view V) (w s) |}.

(** The bytes a rune becomes in the buffer. *)
Definition rune_bytes (r : Z) : bytes :=
  if (0 <=? r) && (r <? 128) then [byte_of r] else utf8.EncodeRune r.

(** [s1] is [s] after [out] more bytes, with the same name table. *)
Definition wrote {W : Type} (V : View W) (s : encodeState W) (out : bytes)
    (s1 : encodeState W) : Prop :=
  good (state_view V) s1
  /\ content (state_view V) s1 = content (state_view V) s ++ out
  /\ nextName s1 = nextName s /\ names s1 = names s.

(** [renders e n m out n1 m1 r]: on every reliable writer, from a state
    whose name table is [(n, m)], the method [e] writes [out], leaves the
    table [(n1, m1)] and returns [r]. *)
Definition renders (e : Encoder) (n : Z) (m : option (gmap string Z))
    (out : bytes) (n1 : Z) (m1 : option (gmap string Z)) (r : result) : Prop :=
  forall W (ops : io.Writer W) (V : View W) (s : encodeState W),
    reliable ops V -> good (state_view V) s ->
    nextName s = n -> names s = m ->
    exists s1, e W ops s = (s1, r)
               /\ good (state_view V) s1
               /\ content (state_view V) s1 = content (state_view V) s ++ out
               /\ nextName s1 = n1 /\ names s1 = m1.

(** An [encode] method is [uniform] when, on reliable writers, what it
    writes, what it returns and what it does to the name table depend on
    the name table alone, not on the writer. *)
Definition uniform (e : Encoder) : Prop :=
  forall n m, exists out n1 m1 r, renders e n m out n1 m1 r.

Definition uniform_iface (o : option Encoder) : Prop :=
  match o with
  | None => True
  | Some e => uniform e
  end.

(** What [EncodeObject] writes into an empty buffer, and what it returns. *)
Definition rendered_iface (o : option Encoder) : bytes :=
  (EncodeObject_iface Buffer [] o).1.
Definition outcome_iface (o : option Encoder) : result :=
  (EncodeObject_iface Buffer [] o).2.

Definition rendered (o : Object) : bytes := (EncodeObject Buffer [] o).1.
Definition outcome (o : Object) : result := (EncodeObject Buffer [] o).2.

(** The elements of [l] with [sep] between neighbours. *)
Fixpoint join (sep : bytes) (l : list bytes) : bytes :=
  match l with
  | [] => []
  | [x] => x
  | x :: l' => x ++ sep ++ join sep l'
  end.

(** What the replacer of [LiteralString.encode] makes of a string. *)
Definition escaped (s : bytes) : bytes :=
  flat_map (fun c => match strings.replacement c with
                     | Some rep => rep
                     | None => [c]
                     end) s.

(** What one iteration of the loop of [Name.encode] writes for a rune. *)
Definition Name_rune (r : Z) : bytes :=
  if (r <? 33) || (126 <? r) then str "#" ++ fmt.int_X r
  else if r =? 35 then str "#23"
  else rune_bytes r.

(** What the loop of [Array.encode] writes and returns: it stops after the
    first element whose encoding does not return [nil]. *)
Fixpoint Array_out (spacing : bytes) (a : list (option Encoder)) : bytes :=
  match a with
  | [] => []
  | o :: a' =>
      spacing ++ rendered_iface o ++
      match outcome_iface o with
      | Done None => Array_out (str " ") a'
      | _ => []
      end
  end.

Fixpoint Array_res (a : list (option Encoder)) : result :=
  match a with
  | [] => Done None
  | o :: a' =>
      match outcome_iface o with
      | Done None => Array_res a'
      | r => r
      end
  end.

(** The same for the loop of [Dict.encode]. *)
Fixpoint Dict_out (d : list (string * option Encoder)) : bytes :=
  match d with
  | [] => []
  | (k, v) :: d' =>
      LF :: rendered_iface (Name_obj k) ++
      match outcome_iface (Name_obj k) with
      | Done None =>
          str " " ++ rendered_iface v ++
          match outcome_iface v with
          | Done None => Dict_out d'
          | _ => []
          end
      | _ => []
      end
  end.

Fixpoint Dict_res (d : list (string * option Encoder)) : result :=
  match d with
  | [] => Done None
  | (k, v) :: d' =>
      match outcome_iface (Name_obj k) with
      | Done None =>
          match outcome_iface v with
          | Done None => Dict_res d'
          | r => r
          end
      | r => r
      end
  end.

(** The closing delimiter is written when the loop ran to its end. *)
Definition closing (r : result) (close : bytes) : bytes :=
  match r with
  | Done None => close
  | _ => []
  end.

(** [objName] on the name table alone. *)
Definition objName_table (name : string) (n : Z) (m : option (gmap string Z))
  : Z * option (gmap string Z) * Z :=
  let m0 := match m with
            | None => ∅
            | Some m0 => m0
            end in
  match m0 !! name with
  | Some id => (n, Some m0, id)
  | None => (int_wrap (n + 1), Some (<[name := n]> m0), n)
  end.

(** The view of an [encodeState] as the writer of a nested
    [EncodeObject(s, obj)]: its name table stays what it is. *)
Definition pinned_view {W : Type} (V : View W) (n : Z) (m : option (gmap string Z))
  : View (encodeState W) :=
  {| good := fun s => good (state_view V) s /\ nextName s = n /\ names s = m;
     content := content (state_view V) |}.

(** The error of [io.CopyN(dst, src, n)] when no write fails. *)
Definition CopyN_err (src : bytes) (n : Z) : option error :=
  let written := Z.of_nat (length (take (Z.to_nat n) src)) in
  if written =? n then None
  else if written <? n then Some io_EOF
  else None.

(** The dictionary [Stream.encode] writes first. *)
Definition Length_dict (Length : Z) : option Encoder :=
  Dict_obj [("Length"%string, Integer_obj Length)].

(** ** Writers that fail

    [logged ops] is the writer [ops] with a flag next to its state that
    is raised by the first write that returns an error. *)
Definition logged {W : Type} (ops : io.Writer W) : io.Writer (W * bool) :=
  {| io.Write := fun p '(w0, failed) =>
       let '(w1, r) := io.Write ops p w0 in
       ((w1, failed || bool_decide (r.2 <> None)), r) |}.

(** A writer with room for [capacity] bytes in all: a write that does not
    fit takes what fits and fails. *)
Definition Limited (capacity : nat) : io.Writer bytes :=
  {| io.Write := fun p out =>
       if (length out + length p <=? capacity)%nat
       then (out ++ p, (length p, None))
       else (out ++ take (capacity - length out) p,
             ((capacity - length out)%nat, Some (SinkError 0))) |}.

(** A state over a logged writer has noticed every failure. *)
Definition noticed {W : Type} (s : encodeState (W * bool)) : Prop :=
  (bufio.wr (w s)).2 = true -> err s <> None.

(** [Q] survives every method of [encodeState]. *)
Definition methods_preserve {W : Type} (ops : io.Writer W)
    (Q : encodeState W -> Prop) : Prop :=
  forall s, Q s ->
    (forall p, Q (Write ops p s).1)
    /\ (forall p, Q (WriteString ops p s).1)
    /\ (forall c, Q (WriteByte ops c s).1)
    /\ (forall r, Q (WriteRune ops r s).1)
    /\ (forall name, Q (objName name s).1).

(** An [encode] method touches the state through its methods only. *)
Definition preserving (e : Encoder) : Prop :=
  forall W (ops : io.Writer W) (Q : encodeState W -> Prop),
    methods_preserve ops Q -> forall s, Q s -> Q (e W ops s).1.

Definition preserving_iface (o : option Encoder) : Prop :=
  match o with
  | None => True
  | Some e => preserving e
  end.

(** ** The write calls of [encodeState] *)
Inductive call : Type :=
| call_Write (buf : bytes)
| call_WriteString (text : bytes)
| call_WriteByte (c : ascii)
| call_WriteRune (r : Z).

(** The call on [s]: the state after it and the error it returns. *)
Definition perform {W : Type} (ops : io.Writer W) (c : call) (s : encodeState W)
  : encodeState W * option error :=
  match c with
  | call_Write buf => let '(s1, (_, e)) := Write ops buf s in (s1, e)
  | call_WriteString text => let '(s1, (_, e)) := WriteString ops text s in (s1, e)
  | call_WriteByte c => WriteByte ops c s
  | call_WriteRune r => let '(s1, (_, e)) := WriteRune ops r s in (s1, e)
  end.

Fixpoint perform_all {W : Type} (ops : io.Writer W) (cs : list call)
    (s : encodeState W) : encodeState W * list (option error) :=
  match cs with
  | [] => (s, [])
  | c :: cs' =>
      let '(s1, e) := perform ops c s in
      let '(s2, es) := perform_all ops cs' s1 in
      (s2, e :: es)
  end.

(** ** Names resolved one after the other *)
Fixpoint objNames {W : Type} (l : list string) (s : encodeState W)
  : encodeState W * list Z :=
  match l with
  | [] => (s, [])
  | name :: l' =>
      let '(s1, id) := objName name s in
      let '(s2, ids) := objNames l' s1 in
      (s2, id :: ids)
  end.

(** The names of [l] without repetition, in the order they first occur,
    continuing from the names [seen] so far. *)
Fixpoint first_seen (seen l : list string) : list string :=
  match l with
  | [] => seen
  | x :: l' =>
      if decide (x ∈ seen) then first_seen seen l'
      else first_seen (seen ++ [x]) l'
  end.

(** The place of [x] in [d] (the length of [d] when it is not there). *)
Fixpoint index_in (d : list string) (x : string) : nat :=
  match d with
  | [] => 0
  | y :: d' => if decide (x = y) then 0 else S (index_in d' x)
  end.

(** ** Characters *)
Definition printable (c : ascii) : Prop := 33 <= byte_val c <= 126.

Definition is_upper_hex (c : ascii) : bool :=
  bool_decide (c ∈ str "0123456789ABCDEF").

(** What [Name.encode] makes of a printable character. *)
Definition Name_char (c : ascii) : bytes :=
  if decide (c = "#"%char) then str "#23" else [c].

(** ** The body of a document: the objects up to and including the first
    whose encoding does not return [nil]. *)
Fixpoint Body_out (body : list (string * Object)) : bytes :=
  match body with
  | [] => []
  | (name, obj) :: body' =>
      rendered (Indirect name obj) ++
      match outcome (Indirect name obj) with
      | Done None => Body_out body'
      | _ => []
      end
  end.

Fixpoint Body_res (body : list (string * Object)) : result :=
  match body with
  | [] => Done None
  | (name, obj) :: body' =>
      match outcome (Indirect name obj) with
      | Done None => Body_res body'
      | r => r
      end
  end.

Definition succeeds (o : Object) : Prop := outcome o = Done None.

(** The name table of a state; a nil map reads as the empty one. *)
Definition table_of {W : Type} (s : encodeState W) : gmap string Z :=
  default ∅ (names s).

(** The underlying logged writer has seen no failure. *)
Definition quiet {W : Type} (b : bufio.Writer (W * bool)) : Prop :=
  (bufio.wr b).2 = false.

(** The name table of [s] holds exactly the names of [d], each with its
    place in [d], and the next id is the length of [d]. *)
Definition numbered {W : Type} (d : list string) (s : encodeState W) : Prop :=
  nextName s = Z.of_nat (length d)
  /\ forall x, table_of s !! x
               = if decide (x ∈ d) then Some (Z.of_nat (index_in d x)) else None.

(** ** Reading the output back *)


(** The value of a hexadecimal digit, and the bytes a run of digit pairs
    stands for. *)
Definition hex_value (c : ascii) : Z :=
  if byte_val c <? 58 then byte_val c - 48 else byte_val c - 55.

Fixpoint unhex (s : bytes) : bytes :=
  match s with
  | hi :: lo :: s' => byte_of (16 * hex_value hi + hex_value lo) :: unhex s'
  | _ => []
  end.

(** The integer a decimal token stands for. *)
Definition parse_int (b : bytes) : option Z :=
  Z.of_int <$> NilZero.int_of_string (string_of_list_ascii b).

(** ** Shapes of values *)


(** The values whose [encode] method does not consult the name table. *)
Definition table_free (o : Object) : bool :=
  match o with
  | Nil | Indirect _ _ | Reference _ => false
  | _ => true
  end.


(** One entry of a dictionary, as [Dict.encode] writes it. *)
Definition Dict_entry (kv : string * Object) : bytes :=
  LF :: rendered (Name kv.1) ++ str " " ++ rendered kv.2.

(** One object of a document body when it is numbered 0. *)
Definition object_0 (o : Object) : bytes :=
  str "0 0 obj" ++ [LF] ++ rendered o ++ LF :: str "endobj" ++ [LF].


(** ** Writes after a failure

    [guarded ops] is the writer [ops] with two flags next to its state:
    [failed], raised by the first write that returns an error, and
    [late], raised by any write that arrives after that. *)
Record guard (W : Type) : Type :=
  mkGuard { inner : W; failed : bool; late : bool }.
Arguments mkGuard {W} _ _ _.
Arguments inner {W} _.
Arguments failed {W} _.
Arguments late {W} _.

Definition guarded {W : Type} (ops : io.Writer W) : io.Writer (guard W) :=
  {| io.Write := fun p (g : guard W) =>
       let '(w1, r) := io.Write ops p (inner g) in
       (mkGuard w1 (failed g || bool_decide (r.2 <> None)) (late g || failed g), r) |}.

(** No write came late, and the buffered writer has kept the error of a
    failed write. *)
Definition on_guard {W : Type} (b : bufio.Writer (guard W)) : Prop :=
  late (bufio.wr b) = false
  /\ (failed (bufio.wr b) = true -> bufio.err b <> None).

(** * Properties *)

(** ** The buffered writer on a reliable writer *)

Section bufio_reliable.

Context {W : Type} {ops : io.Writer W} {V : View W} (R : reliable ops V).

Lemma Flush_reliable b :
  good (bufio_view V) b ->
  exists b1, bufio.Flush ops b = (b1, None)
             /\ good (bufio_view V) b1 /\ bufio.buf b1 = []
             /\ content (bufio_view V) b1 = content (bufio_view V) b.
Proof.
  intros [He Hg]. unfold bufio.Flush. rewrite He.
  destruct (bufio.buf b) as [|c l] eqn:Hb.
  - exists b. repeat split; auto.
  - destruct (R (c :: l) _ Hg) as (w1 & n & Hw & Hg1 & Hc).
    rewrite Hw. eexists. split; [reflexivity|].
    repeat split; auto. cbn. rewrite Hb, app_nil_r. exact Hc.
Qed.

Lemma direct_reliable p b nn :
  good (bufio_view V) b ->
  exists b1 n, bufio.direct ops p b nn = (b1, (n, None))
               /\ good (bufio_view V) b1 /\ bufio.buf b1 = bufio.buf b
               /\ content V (bufio.wr b1) = content V (bufio.wr b) ++ p.
Proof.
  intros [He Hg]. unfold bufio.direct.
  destruct (R p _ Hg) as (w1 & n & Hw & Hg1 & Hc).
  rewrite Hw. do 2 eexists. split; [reflexivity|].
  repeat split; auto.
Qed.

Lemma bufio_Write_reliable p b :
  good (bufio_view V) b ->
  exists b1 n, bufio.Write ops p b = (b1, (n, None))
               /\ good (bufio_view V) b1
               /\ content (bufio_view V) b1 = content (bufio_view V) b ++ p.
Proof.
  intros Hb. pose proof Hb as [He Hg]. unfold bufio.Write. rewrite He.
  destruct (length p <=? bufio.Available b)%nat.
  { do 2 eexists. split; [reflexivity|].
    split; [split; [reflexivity|exact Hg]|]. cbn. by rewrite app_assoc. }
  destruct (bufio.buf b) as [|c l] eqn:Hbuf.
  { destruct (direct_reliable p b 0 Hb) as (b1 & n & Hd & Hg1 & Hb1 & Hc).
    rewrite Hd. do 2 eexists. split; [reflexivity|]. split; [done|].
    cbn. rewrite Hb1, Hc, Hbuf, !app_nil_r. done. }
  set (n := bufio.Available b). set (pending := c :: l) in *.
  set (b0 := bufio.mk (bufio.wr b) (pending ++ take n p) None).
  assert (Hb0 : good (bufio_view V) b0) by (split; [reflexivity|exact Hg]).
  destruct (Flush_reliable b0 Hb0) as (b1 & Hf & Hg1 & Hn1 & Hc1).
  rewrite Hf.
  assert (Htot : content (bufio_view V) b1 ++ drop n p
                 = content (bufio_view V) b ++ p).
  { rewrite Hc1.
    change ((content V (bufio.wr b) ++ (pending ++ take n p)) ++ drop n p
            = (content V (bufio.wr b) ++ bufio.buf b) ++ p).
    rewrite Hbuf, <- !app_assoc. by rewrite take_drop. }
  destruct (length (drop n p) <=? bufio.Available b1)%nat.
  { do 2 eexists. split; [reflexivity|]. destruct Hg1 as [He1 Hgw1].
    split; [split; [reflexivity|exact Hgw1]|].
    rewrite <- Htot. cbn. by rewrite app_assoc. }
  destruct (direct_reliable (drop n p) b1 n Hg1) as (b2 & k & Hd & Hg2 & Hb2 & Hc2).
  rewrite Hd. do 2 eexists. split; [reflexivity|]. split; [done|].
  rewrite <- Htot. cbn. rewrite Hb2, Hc2, Hn1, !app_nil_r. done.
Qed.

Lemma bufio_WriteByte_reliable c b :
  good (bufio_view V) b ->
  exists b1, bufio.WriteByte ops c b = (b1, None)
             /\ good (bufio_view V) b1
             /\ content (bufio_view V) b1 = content (bufio_view V) b ++ [c].
Proof.
  intros Hb. pose proof Hb as [He Hg]. unfold bufio.WriteByte. rewrite He.
  destruct (bufio.Available b =? 0)%nat.
  - destruct (Flush_reliable b Hb) as (b1 & Hf & [He1 Hg1] & Hn1 & Hc1).
    rewrite Hf. eexists. split; [reflexivity|].
    split; [split; [exact He1|exact Hg1]|].
    rewrite <- Hc1. cbn. by rewrite app_assoc.
  - eexists. split; [reflexivity|].
    split; [split; [reflexivity|exact Hg]|]. cbn. by rewrite app_assoc.
Qed.

Lemma bufio_WriteRune_reliable r b :
  good (bufio_view V) b ->
  exists b1 n, bufio.WriteRune ops r b = (b1, (n, None))
               /\ good (bufio_view V) b1
               /\ content (bufio_view V) b1 = content (bufio_view V) b ++ rune_bytes r.
Proof.
  intros Hb. pose proof Hb as [He Hg]. unfold bufio.WriteRune, rune_bytes.
  destruct ((0 <=? r) && (r <? 128)).
  - destruct (bufio_WriteByte_reliable (byte_of r) b Hb) as (b1 & Hw & Hg1 & Hc1).
    rewrite Hw. eauto.
  - rewrite He. destruct (bufio.Available b <? 4)%nat.
    + destruct (Flush_reliable b Hb) as (b1 & Hf & [He1 Hg1] & Hn1 & Hc1).
      rewrite Hf. do 2 eexists. split; [reflexivity|].
      split; [split; [exact He1|exact Hg1]|].
      rewrite <- Hc1. cbn. by rewrite app_assoc.
    + do 2 eexists. split; [reflexivity|].
      split; [split; [reflexivity|exact Hg]|]. cbn. by rewrite app_assoc.
Qed.

(** ** The methods of [encodeState] on a reliable writer *)

Lemma Write_reliable p s :
  good (state_view V) s ->
  exists s1 n, Write ops p s = (s1, (n, None)) /\ wrote V s p s1.
Proof.
  intros [He Hb]. unfold Write. rewrite He.
  destruct (bufio_Write_reliable p (w s) Hb) as (b1 & n & Hw & Hg1 & Hc).
  rewrite Hw. do 2 eexists. split; [reflexivity|].
  repeat split; auto; apply Hg1.
Qed.

Lemma WriteString_reliable p s :
  good (state_view V) s ->
  exists s1 n, WriteString ops p s = (s1, (n, None)) /\ wrote V s p s1.
Proof.
  intros [He Hb]. unfold WriteString, bufio.WriteString. rewrite He.
  destruct (bufio_Write_reliable p (w s) Hb) as (b1 & n & Hw & Hg1 & Hc).
  rewrite Hw. do 2 eexists. split; [reflexivity|].
  repeat split; auto; apply Hg1.
Qed.

Lemma WriteByte_reliable c s :
  good (state_view V) s ->
  exists s1, WriteByte ops c s = (s1, None) /\ wrote V s [c] s1.
Proof.
  intros [He Hb]. unfold WriteByte. rewrite He.
  destruct (bufio_WriteByte_reliable c (w s) Hb) as (b1 & Hw & Hg1 & Hc).
  rewrite Hw. eexists. split; [reflexivity|].
  repeat split; auto; apply Hg1.
Qed.

Lemma WriteRune_reliable r s :
  good (state_view V) s ->
  exists s1 n, WriteRune ops r s = (s1, (n, None)) /\ wrote V s (rune_bytes r) s1.
Proof.
  intros [He Hb]. unfold WriteRune. rewrite He.
  destruct (bufio_WriteRune_reliable r (w s) Hb) as (b1 & n & Hw & Hg1 & Hc).
  rewrite Hw. do 2 eexists. split; [reflexivity|].
  repeat split; auto; apply Hg1.
Qed.

Lemma Close_reliable s :
  good (state_view V) s ->
  exists s1, Close ops s = (s1, None)
             /\ good V (bufio.wr (w s1))
             /\ content V (bufio.wr (w s1)) = content (state_view V) s.
Proof.
  intros [He Hb]. unfold Close. rewrite He.
  destruct (Flush_reliable (w s) Hb) as (b1 & Hf & [He1 Hg1] & Hn1 & Hc).
  rewrite Hf. eexists. split; [reflexivity|]. split; [exact Hg1|].
  cbn in *. rewrite <- Hc, Hn1, app_nil_r. done.
Qed.

(** An [encodeState] on a reliable writer is a reliable writer. *)
Lemma state_reliable : reliable (encodeState_Writer ops) (state_view V).
Proof.
  intros p s Hs. destruct (Write_reliable p s Hs) as (s1 & n & Hw & Hg & Hc & _).
  exists s1, n. auto.
Qed.

End bufio_reliable.

Lemma Buffer_reliable : reliable Buffer Buffer_view.
Proof.
  intros p w0 _. exists (w0 ++ p), (length p).
  split; [reflexivity|split; [exact I|reflexivity]].
Qed.

Lemma wrote_refl {W} (V : View W) s : good (state_view V) s -> wrote V s [] s.
Proof. intros H. repeat split; try apply H. by rewrite app_nil_r. Qed.

Lemma wrote_trans {W} (V : View W) s1 s2 s3 o1 o2 :
  wrote V s1 o1 s2 -> wrote V s2 o2 s3 -> wrote V s1 (o1 ++ o2) s3.
Proof.
  intros (g1 & c1 & n1 & m1) (g2 & c2 & n2 & m2).
  repeat split; try apply g2; try congruence.
  rewrite c2, c1. by rewrite app_assoc.
Qed.

(** ** [EncodeObject] on a reliable writer *)

Ltac use_write H :=
  let s1 := fresh "s" in
  let k := fresh "k" in
  let Hw := fresh "Hw" in
  let HS := fresh "HS" in
  destruct H as (s1 & k & Hw & HS); rewrite Hw; clear Hw.

Ltac use_byte H :=
  let s1 := fresh "s" in
  let Hw := fresh "Hw" in
  let HS := fresh "HS" in
  destruct H as (s1 & Hw & HS); rewrite Hw; clear Hw.

Ltac finish_wrote H :=
  let Hg := fresh in let Hc := fresh in let Hn := fresh in let Hm := fresh in
  destruct H as (Hg & Hc & Hn & Hm);
  eexists; split; [reflexivity|];
  split; [exact Hg|];
  split; [rewrite Hc; rewrite <- ?app_assoc; reflexivity|];
  split; congruence.

Lemma wrote_renders {W} (V : View W) (s s1 : encodeState W) out :
  wrote V s out s1 ->
  good (state_view V) s1
  /\ content (state_view V) s1 = content (state_view V) s ++ out
  /\ nextName s1 = nextName s /\ names s1 = names s.
Proof. auto. Qed.

(** Rendering through a fresh state: what [EncodeObject] does with a
    non-nil object whose method renders [out] from the empty name table. *)
Lemma EncodeObject_iface_renders e out n1 m1 r :
  renders e 0 None out n1 m1 r ->
  forall W (ops : io.Writer W) (V : View W) w0,
    reliable ops V -> good V w0 ->
    exists w1, EncodeObject_iface ops w0 (Some e) = (w1, r)
               /\ good V w1 /\ content V w1 = content V w0 ++ out.
Proof.
  intros He W ops V w0 R Hg. unfold EncodeObject_iface.
  set (ew := mkState (bufio.NewWriter w0) None 0 None).
  assert (Hew : good (state_view V) ew) by (repeat split; auto).
  destruct (He W ops V ew R Hew eq_refl eq_refl) as (s1 & Hrun & Hg1 & Hc1 & _).
  rewrite Hrun.
  destruct (Close_reliable R s1 Hg1) as (s2 & Hcl & Hg2 & Hc2).
  rewrite Hcl. exists (bufio.wr (w s2)).
  split.
  - f_equal. destruct Hg1 as [Herr _]. rewrite Herr.
    destruct r as [[e0|]|]; reflexivity.
  - split; [exact Hg2|]. rewrite Hc2, Hc1. cbn. by rewrite app_nil_r.
Qed.

Lemma EncodeObject_iface_nil W (ops : io.Writer W) (V : View W) w0 :
  reliable ops V -> good V w0 ->
  exists w1, EncodeObject_iface ops w0 None = (w1, Done None)
             /\ good V w1 /\ content V w1 = content V w0 ++ str "null".
Proof.
  intros R Hg. unfold EncodeObject_iface, io.WriteString.
  destruct (R (str "null") w0 Hg) as (w1 & n & Hw & Hg1 & Hc).
  rewrite Hw. eauto.
Qed.

Lemma rendered_of_renders e out n1 m1 r :
  renders e 0 None out n1 m1 r ->
  rendered_iface (Some e) = out /\ outcome_iface (Some e) = r.
Proof.
  intros He.
  destruct (EncodeObject_iface_renders e out n1 m1 r He bytes Buffer Buffer_view []
              Buffer_reliable I) as (w1 & Hrun & _ & Hc).
  unfold rendered_iface, outcome_iface. rewrite Hrun. cbn in *. auto.
Qed.

Lemma rendered_nil :
  rendered_iface None = str "null" /\ outcome_iface None = Done None.
Proof. split; reflexivity. Qed.

(** On every reliable writer [EncodeObject] appends what it writes into
    an empty buffer, and returns the same. *)
Lemma EncodeObject_iface_reliable o :
  uniform_iface o ->
  forall W (ops : io.Writer W) (V : View W) w0,
    reliable ops V -> good V w0 ->
    exists w1, EncodeObject_iface ops w0 o = (w1, outcome_iface o)
               /\ good V w1 /\ content V w1 = content V w0 ++ rendered_iface o.
Proof.
  intros Hu W ops V w0 R Hg. destruct o as [e|].
  - destruct (Hu 0 None) as (out & n1 & m1 & r & He).
    destruct (rendered_of_renders _ _ _ _ _ He) as [-> ->].
    eapply EncodeObject_iface_renders; eauto.
  - apply EncodeObject_iface_nil; auto.
Qed.

(** ** What each [encode] method renders *)

Lemma renders_Boolean b n m :
  renders (fun W ops => Boolean_encode ops b) n m (fmt.bool_v b) n m (Done None).
Proof.
  intros W ops V s R Hg Hn Hm. unfold Boolean_encode.
  use_write (Write_reliable R (fmt.bool_v b) s Hg).
  finish_wrote HS.
Qed.

Lemma renders_Integer i n m :
  renders (fun W ops => Integer_encode ops i) n m (fmt.int_v i) n m (Done None).
Proof.
  intros W ops V s R Hg Hn Hm. unfold Integer_encode.
  use_write (Write_reliable R (fmt.int_v i) s Hg).
  finish_wrote HS.
Qed.

Lemma renders_Real text n m :
  renders (fun W ops => Real_encode ops text) n m text n m (Done None).
Proof.
  intros W ops V s R Hg Hn Hm. unfold Real_encode.
  use_write (Write_reliable R text s Hg).
  finish_wrote HS.
Qed.

Lemma renders_HexString b n m :
  renders (fun W ops => HexString_encode ops b) n m
    (str "<" ++ fmt.bytes_X b ++ str ">") n m (Done None).
Proof.
  intros W ops V s R Hg Hn Hm. unfold HexString_encode.
  use_write (Write_reliable R (str "<" ++ fmt.bytes_X b ++ str ">") s Hg).
  finish_wrote HS.
Qed.

Lemma Replacer_go_reliable {W} (ops : io.Writer W) (V : View W) (R : reliable ops V) text :
  forall last s n, good (state_view V) s ->
    exists s1 k, strings.Replacer_go (Write ops) (WriteString ops) last text s n = (s1, (k, None))
                 /\ wrote V s (last ++ escaped text) s1.
Proof.
  induction text as [|c text IH]; intros last s n Hg; cbn [strings.Replacer_go escaped flat_map].
  - destruct last as [|c0 l0].
    + do 2 eexists. split; [reflexivity|]. by apply wrote_refl.
    + use_write (WriteString_reliable R (c0 :: l0) s Hg).
      do 2 eexists. split; [reflexivity|]. by rewrite app_nil_r.
  - fold (escaped text). destruct (strings.replacement c) as [rep|].
    + assert (Hlast : exists s1 n1,
                 match last with
                 | [] => (s, (n, None))
                 | _ :: _ => let '(w1, (nw, e)) := WriteString ops last s in
                             (w1, ((n + nw)%nat, e))
                 end = (s1, (n1, None)) /\ wrote V s last s1).
      { destruct last as [|c0 l0].
        - do 2 eexists. split; [reflexivity|]. by apply wrote_refl.
        - use_write (WriteString_reliable R (c0 :: l0) s Hg). eauto. }
      destruct Hlast as (s1 & n1 & -> & HS1).
      use_write (Write_reliable R rep s1 (proj1 HS1)).
      destruct (IH [] s0 (n1 + k)%nat (proj1 HS)) as (s2 & k2 & -> & HS2).
      do 2 eexists. split; [reflexivity|].
      pose proof (wrote_trans _ _ _ _ _ _ (wrote_trans _ _ _ _ _ _ HS1 HS) HS2) as Ht.
      by rewrite <- app_assoc in Ht.
    + destruct (IH (last ++ [c]) s n Hg) as (s1 & k & -> & HS).
      do 2 eexists. split; [reflexivity|].
      by rewrite <- app_assoc in HS.
Qed.

Lemma renders_LiteralString text n m :
  renders (fun W ops => LiteralString_encode ops text) n m
    (str "(" ++ escaped (str text) ++ str ")") n m (Done None).
Proof.
  intros W ops V s R Hg Hn Hm. unfold LiteralString_encode.
  use_byte (WriteByte_reliable R "("%char s Hg).
  unfold strings.Replacer_WriteString.
  destruct (Replacer_go_reliable ops V R (str text) [] s0 0%nat (proj1 HS))
    as (s1 & k & -> & HS1).
  use_byte (WriteByte_reliable R ")"%char s1 (proj1 HS1)).
  pose proof (wrote_trans _ _ _ _ _ _ (wrote_trans _ _ _ _ _ _ HS HS1) HS0) as Ht.
  finish_wrote Ht.
Qed.

Lemma Name_encode_loop_reliable {W} (ops : io.Writer W) (V : View W) (R : reliable ops V) rs :
  forall s, good (state_view V) s ->
    exists s1, Name_encode_loop ops rs s = (s1, Done None)
               /\ wrote V s (flat_map Name_rune rs) s1.
Proof.
  induction rs as [|r rs IH]; intros s Hg; cbn [Name_encode_loop flat_map].
  - eexists. split; [reflexivity|]. by apply wrote_refl.
  - unfold Name_rune at 1.
    destruct ((r <? 33) || (126 <? r)); [|destruct (r =? 35)].
    + use_write (Write_reliable R (str "#" ++ fmt.int_X r) s Hg).
      destruct (IH s0 (proj1 HS)) as (s1 & -> & HS1).
      eexists. split; [reflexivity|]. eapply wrote_trans; eauto.
    + use_write (WriteString_reliable R (str "#23") s Hg).
      destruct (IH s0 (proj1 HS)) as (s1 & -> & HS1).
      eexists. split; [reflexivity|]. eapply wrote_trans; eauto.
    + use_write (WriteRune_reliable R r s Hg).
      destruct (IH s0 (proj1 HS)) as (s1 & -> & HS1).
      eexists. split; [reflexivity|]. eapply wrote_trans; eauto.
Qed.

Lemma renders_Name x n m :
  renders (fun W ops => Name_encode ops x) n m
    (str "/" ++ flat_map Name_rune (utf8.range x)) n m (Done None).
Proof.
  intros W ops V s R Hg Hn Hm. unfold Name_encode.
  use_byte (WriteByte_reliable R "/"%char s Hg).
  destruct (Name_encode_loop_reliable ops V R (utf8.range x) s0 (proj1 HS))
    as (s1 & -> & HS1).
  pose proof (wrote_trans _ _ _ _ _ _ HS HS1) as Ht.
  finish_wrote Ht.
Qed.

Lemma pinned_reliable {W} (ops : io.Writer W) (V : View W) (R : reliable ops V) n m :
  reliable (encodeState_Writer ops) (pinned_view V n m).
Proof.
  intros p s (Hs & Hn & Hm).
  destruct (Write_reliable R p s Hs) as (s1 & k & Hw & Hg & Hc & Hn1 & Hm1).
  exists s1, k. split; [exact Hw|]. split; [|exact Hc].
  split; [exact Hg|]. split; congruence.
Qed.

(** A nested [EncodeObject(s, obj)]. *)
Lemma EncodeObject_nested {W} (ops : io.Writer W) (V : View W) (R : reliable ops V) o s :
  uniform_iface o -> good (state_view V) s ->
  exists s1, EncodeObject_iface (encodeState_Writer ops) s o = (s1, outcome_iface o)
             /\ wrote V s (rendered_iface o) s1.
Proof.
  intros Hu Hg.
  destruct (EncodeObject_iface_reliable o Hu _ _ (pinned_view V (nextName s) (names s)) s
              (pinned_reliable ops V R _ _)) as (s1 & Hrun & (Hg1 & Hn1 & Hm1) & Hc).
  { split; auto. }
  exists s1. split; [exact Hrun|]. repeat split; auto; apply Hg1.
Qed.

Lemma Array_encode_loop_reliable {W} (ops : io.Writer W) (V : View W) (R : reliable ops V) a :
  Forall uniform_iface a ->
  forall spacing s, good (state_view V) s ->
    exists s1, Array_encode_loop ops spacing a s = (s1, Array_res a)
               /\ wrote V s (Array_out spacing a) s1.
Proof.
  induction 1 as [|o a Ho Ha IH]; intros spacing s Hg;
    cbn [Array_encode_loop Array_out Array_res].
  - eexists. split; [reflexivity|]. by apply wrote_refl.
  - use_write (WriteString_reliable R spacing s Hg).
    destruct (EncodeObject_nested ops V R o s0 Ho (proj1 HS)) as (s1 & -> & HS1).
    pose proof (wrote_trans _ _ _ _ _ _ HS HS1) as Ht.
    destruct (outcome_iface o) as [[e|]|].
    + eexists. split; [reflexivity|]. by rewrite app_nil_r.
    + destruct (IH (str " ") s1 (proj1 HS1)) as (s2 & -> & HS2).
      eexists. split; [reflexivity|].
      pose proof (wrote_trans _ _ _ _ _ _ Ht HS2) as Ht2.
      by rewrite <- app_assoc in Ht2.
    + eexists. split; [reflexivity|]. by rewrite app_nil_r.
Qed.

Lemma renders_Array a n m :
  Forall uniform_iface a ->
  renders (fun W ops => Array_encode ops a) n m
    (str "[" ++ Array_out [] a ++ closing (Array_res a) (str "]")) n m (Array_res a).
Proof.
  intros Ha W ops V s R Hg Hn Hm. unfold Array_encode.
  use_byte (WriteByte_reliable R "["%char s Hg).
  destruct (Array_encode_loop_reliable ops V R a Ha [] s0 (proj1 HS)) as (s1 & -> & HS1).
  pose proof (wrote_trans _ _ _ _ _ _ HS HS1) as Ht.
  destruct (Array_res a) as [[e|]|]; cbn [closing].
  - rewrite app_nil_r. finish_wrote Ht.
  - use_byte (WriteByte_reliable R "]"%char s1 (proj1 HS1)).
    pose proof (wrote_trans _ _ _ _ _ _ Ht HS0) as Ht2. finish_wrote Ht2.
  - rewrite app_nil_r. finish_wrote Ht.
Qed.

Lemma uniform_Name k : uniform_iface (Name_obj k).
Proof. intros n m. do 4 eexists. apply renders_Name. Qed.

Lemma uniform_Integer i : uniform_iface (Integer_obj i).
Proof. intros n m. do 4 eexists. apply renders_Integer. Qed.

Lemma Dict_encode_loop_reliable {W} (ops : io.Writer W) (V : View W) (R : reliable ops V) d :
  Forall (fun kv => uniform_iface kv.2) d ->
  forall s, good (state_view V) s ->
    exists s1, Dict_encode_loop ops d s = (s1, Dict_res d)
               /\ wrote V s (Dict_out d) s1.
Proof.
  induction 1 as [|[k v] d Hv Hd IH]; intros s Hg;
    cbn [Dict_encode_loop Dict_out Dict_res].
  - eexists. split; [reflexivity|]. by apply wrote_refl.
  - use_byte (WriteByte_reliable R LF s Hg).
    destruct (EncodeObject_nested ops V R (Name_obj k) s0 (uniform_Name k) (proj1 HS))
      as (s1 & -> & HS1).
    pose proof (wrote_trans _ _ _ _ _ _ HS HS1) as Ht.
    destruct (outcome_iface (Name_obj k)) as [[e|]|].
    + eexists. split; [reflexivity|]. by rewrite app_nil_r.
    + use_byte (WriteByte_reliable R " "%char s1 (proj1 HS1)).
      destruct (EncodeObject_nested ops V R v s2 Hv (proj1 HS0)) as (s3 & -> & HS3).
      pose proof (wrote_trans _ _ _ _ _ _ (wrote_trans _ _ _ _ _ _ Ht HS0) HS3) as Ht3.
      destruct (outcome_iface v) as [[e|]|].
      * eexists. split; [reflexivity|].
        rewrite app_nil_r. by rewrite <- !app_assoc in Ht3.
      * destruct (IH s3 (proj1 HS3)) as (s4 & -> & HS4).
        eexists. split; [reflexivity|].
        pose proof (wrote_trans _ _ _ _ _ _ Ht3 HS4) as Ht4.
        by rewrite <- !app_assoc in Ht4.
      * eexists. split; [reflexivity|].
        rewrite app_nil_r. by rewrite <- !app_assoc in Ht3.
    + eexists. split; [reflexivity|]. by rewrite app_nil_r.
Qed.

Lemma renders_Dict d n m :
  Forall (fun kv => uniform_iface kv.2) d ->
  renders (fun W ops => Dict_encode ops d) n m
    (str "<<" ++ Dict_out d ++ closing (Dict_res d) (LF :: str ">>")) n m (Dict_res d).
Proof.
  intros Hd W ops V s R Hg Hn Hm. unfold Dict_encode.
  use_write (WriteString_reliable R (str "<<") s Hg).
  destruct (Dict_encode_loop_reliable ops V R d Hd s0 (proj1 HS)) as (s1 & -> & HS1).
  pose proof (wrote_trans _ _ _ _ _ _ HS HS1) as Ht.
  destruct (Dict_res d) as [[e|]|]; cbn [closing].
  - rewrite app_nil_r. finish_wrote Ht.
  - use_write (WriteString_reliable R (LF :: str ">>") s1 (proj1 HS1)).
    pose proof (wrote_trans _ _ _ _ _ _ Ht HS0) as Ht2. finish_wrote Ht2.
  - rewrite app_nil_r. finish_wrote Ht.
Qed.

(** ** [io.CopyN] into a reliable writer *)

Lemma chunks_concat fuel size data :
  (1 <= size)%nat -> (length data <= fuel)%nat ->
  concat (io.chunks fuel size data) = data.
Proof.
  intros Hsize. revert data.
  induction fuel as [|fuel IH]; intros data Hlen.
  - destruct data; [reflexivity|cbn in Hlen; lia].
  - destruct data as [|c data]; [reflexivity|].
    cbn [io.chunks concat]. rewrite IH.
    + apply take_drop.
    + rewrite length_drop. cbn [length] in *. lia.
Qed.

Lemma copy_chunks_reliable {W} (ops : io.Writer W) (V : View W) (R : reliable ops V) cs :
  forall s written, good (state_view V) s ->
    exists s1, io.copy_chunks (Write ops) cs s written
               = (s1, (written + Z.of_nat (length (concat cs)), None))
               /\ wrote V s (concat cs) s1.
Proof.
  induction cs as [|c cs IH]; intros s written Hg; cbn [io.copy_chunks concat].
  - eexists. split; [by rewrite Z.add_0_r|]. by apply wrote_refl.
  - use_write (Write_reliable R c s Hg). cbn [snd].
    destruct (IH s0 (written + Z.of_nat (length c)) (proj1 HS)) as (s1 & -> & HS1).
    eexists. split.
    + rewrite length_app. do 2 f_equal. lia.
    + eapply wrote_trans; eauto.
Qed.

Lemma CopyN_reliable {W} (ops : io.Writer W) (V : View W) (R : reliable ops V) src n s :
  good (state_view V) s ->
  exists s1 written, io.CopyN (Write ops) s src n = (s1, (written, CopyN_err src n))
                     /\ wrote V s (take (Z.to_nat n) src) s1.
Proof.
  intros Hg. unfold io.CopyN, CopyN_err.
  set (limited := take (Z.to_nat n) src).
  set (size := Nat.min 32768 (Nat.max (Z.to_nat n) 1)).
  destruct (copy_chunks_reliable ops V R (io.chunks (length limited) size limited) s 0 Hg)
    as (s1 & Hrun & HS).
  assert (Hsize : (1 <= size)%nat).
  { apply Nat.min_glb; [|apply Nat.le_max_r]. apply Nat.leb_le. vm_compute. reflexivity. }
  rewrite (chunks_concat _ _ _ Hsize (le_n _)) in Hrun, HS.
  rewrite Hrun, Z.add_0_l.
  destruct (Z.of_nat (length limited) =? n); [eauto|].
  destruct (Z.of_nat (length limited) <? n); cbn; eauto.
Qed.

Lemma uniform_Length_dict Length : uniform_iface (Length_dict Length).
Proof.
  intros n m. do 4 eexists. apply renders_Dict.
  constructor; [apply uniform_Integer|constructor].
Qed.

Lemma rendered_Integer i :
  rendered_iface (Integer_obj i) = fmt.int_v i /\ outcome_iface (Integer_obj i) = Done None.
Proof. eapply rendered_of_renders, renders_Integer. Qed.

(** [<<], a line [/Length n], [>>]. *)
Lemma rendered_Length_dict Length :
  rendered_iface (Length_dict Length)
  = str "<<" ++ [LF] ++ str "/Length " ++ fmt.int_v Length ++ [LF] ++ str ">>"
  /\ outcome_iface (Length_dict Length) = Done None.
Proof.
  destruct (rendered_Integer Length) as [Hr Ho].
  assert (Hres : Dict_res [("Length"%string, Integer_obj Length)] = Done None).
  { cbn [Dict_res]. rewrite Ho. reflexivity. }
  destruct (rendered_of_renders _ _ _ _ _
              (renders_Dict [("Length"%string, Integer_obj Length)] 0 None
                 ltac:(constructor; [apply uniform_Integer|constructor])))
    as [Hrd Hod].
  change (Length_dict Length)
    with (@Some Encoder
            (fun W ops => @Dict_encode W ops [("Length"%string, Integer_obj Length)])).
  rewrite Hrd, Hod, Hres. split; [|reflexivity].
  cbn [Dict_out closing]. rewrite Ho, Hr.
  change (outcome_iface (Name_obj "Length")) with (Done None).
  change (rendered_iface (Name_obj "Length")) with (str "/Length").
  cbn. by rewrite <- !app_assoc.
Qed.

Lemma renders_Stream Length Data n m :
  renders (fun W ops => Stream_encode ops Length Data) n m
    (rendered_iface (Length_dict Length) ++ (LF :: str "stream" ++ [LF])
     ++ take (Z.to_nat Length) Data
     ++ match CopyN_err Data Length with
        | None => LF :: str "endstream" ++ [LF]
        | Some _ => []
        end)
    n m (Done (CopyN_err Data Length)).
Proof.
  intros W ops V s R Hg Hn Hm. unfold Stream_encode.
  destruct (EncodeObject_nested ops V R (Length_dict Length) s
              (uniform_Length_dict Length) Hg) as (s1 & Hrun & HS1).
  fold (Length_dict Length). rewrite Hrun.
  rewrite (proj2 (rendered_Length_dict Length)).
  use_write (WriteString_reliable R (LF :: str "stream" ++ [LF]) s1 (proj1 HS1)).
  destruct (CopyN_reliable ops V R Data Length s0 (proj1 HS)) as (s2 & k2 & -> & HS2).
  pose proof (wrote_trans _ _ _ _ _ _ (wrote_trans _ _ _ _ _ _ HS1 HS) HS2) as Ht.
  destruct (CopyN_err Data Length) as [e|].
  - rewrite app_nil_r. finish_wrote Ht.
  - use_write (WriteString_reliable R (LF :: str "endstream" ++ [LF]) s2 (proj1 HS2)).
    pose proof (wrote_trans _ _ _ _ _ _ Ht HS0) as Ht2. finish_wrote Ht2.
Qed.

(** ** The name table *)

Lemma objName_table_spec {W} name (s : encodeState W) :
  objName name s
  = let '(n1, m1, id) := objName_table name (nextName s) (names s) in
    (mkState (w s) (err s) n1 m1, id).
Proof.
  unfold objName, objName_table.
  destruct (names s) as [m0|]; cbn;
    match goal with |- context [?m !! name] => destruct (m !! name) end; reflexivity.
Qed.

Lemma renders_Reference name n m n1 m1 id :
  objName_table name n m = (n1, m1, id) ->
  renders (fun W ops => Reference_encode ops name) n m
    (fmt.int_v id ++ str " 0 R") n1 m1 (Done None).
Proof.
  intros Ht W ops V s R Hg Hn Hm. unfold Reference_encode.
  rewrite objName_table_spec, Hn, Hm, Ht.
  set (s1 := mkState (w s) (err s) n1 m1).
  assert (Hg1 : good (state_view V) s1) by exact Hg.
  destruct (renders_Integer id n1 m1 W ops V s1 R Hg1 eq_refl eq_refl)
    as (s2 & Hrun & Hg2 & Hc2 & Hn2 & Hm2).
  cbv beta in Hrun. rewrite Hrun.
  use_write (WriteString_reliable R (str " 0 R") s2 Hg2).
  destruct HS as (Hg3 & Hc3 & Hn3 & Hm3).
  eexists. split; [reflexivity|]. split; [exact Hg3|].
  split; [|split; congruence].
  rewrite Hc3, Hc2. by rewrite <- app_assoc.
Qed.

Lemma renders_Indirect_nil name n m n1 m1 id :
  objName_table name n m = (n1, m1, id) ->
  renders (fun W ops => Indirect_encode ops name None) n m
    (fmt.int_v id ++ str " 0 obj" ++ [LF]) n1 m1 Panic.
Proof.
  intros Ht W ops V s R Hg Hn Hm. unfold Indirect_encode.
  rewrite objName_table_spec, Hn, Hm, Ht.
  set (s1 := mkState (w s) (err s) n1 m1).
  assert (Hg1 : good (state_view V) s1) by exact Hg.
  destruct (renders_Integer id n1 m1 W ops V s1 R Hg1 eq_refl eq_refl)
    as (s2 & Hrun & Hg2 & Hc2 & Hn2 & Hm2).
  cbv beta in Hrun. rewrite Hrun.
  use_write (WriteString_reliable R (str " 0 obj" ++ [LF]) s2 Hg2).
  destruct HS as (Hg3 & Hc3 & Hn3 & Hm3).
  eexists. split; [reflexivity|]. split; [exact Hg3|].
  split; [|split; congruence].
  rewrite Hc3, Hc2. by rewrite <- app_assoc.
Qed.

Lemma renders_Indirect name e n m n1 m1 id out n2 m2 r :
  objName_table name n m = (n1, m1, id) ->
  renders e n1 m1 out n2 m2 r ->
  renders (fun W ops => Indirect_encode ops name (Some e)) n m
    (fmt.int_v id ++ (str " 0 obj" ++ [LF]) ++ out
     ++ closing r (LF :: str "endobj" ++ [LF]))
    n2 m2 r.
Proof.
  intros Ht He W ops V s R Hg Hn Hm. unfold Indirect_encode.
  rewrite objName_table_spec, Hn, Hm, Ht.
  set (s1 := mkState (w s) (err s) n1 m1).
  assert (Hg1 : good (state_view V) s1) by exact Hg.
  destruct (renders_Integer id n1 m1 W ops V s1 R Hg1 eq_refl eq_refl)
    as (s2 & Hrun & Hg2 & Hc2 & Hn2 & Hm2).
  cbv beta in Hrun. rewrite Hrun.
  use_write (WriteString_reliable R (str " 0 obj" ++ [LF]) s2 Hg2).
  destruct HS as (Hg3 & Hc3 & Hn3 & Hm3).
  destruct (He W ops V s0 R Hg3 ltac:(congruence) ltac:(congruence))
    as (s4 & -> & Hg4 & Hc4 & Hn4 & Hm4).
  assert (Hc : content (state_view V) s4
               = content (state_view V) s
                 ++ fmt.int_v id ++ (str " 0 obj" ++ [LF]) ++ out).
  { rewrite Hc4, Hc3, Hc2. by rewrite <- !app_assoc. }
  destruct r as [[e0|]|]; cbn [closing].
  - eexists. split; [reflexivity|]. rewrite app_nil_r. auto.
  - use_write (WriteString_reliable R (LF :: str "endobj" ++ [LF]) s4 Hg4).
    destruct HS as (Hg5 & Hc5 & Hn5 & Hm5).
    eexists. split; [reflexivity|]. split; [exact Hg5|].
    split; [|split; congruence].
    rewrite Hc5, Hc. by rewrite <- !app_assoc.
  - eexists. split; [reflexivity|]. rewrite app_nil_r. auto.
Qed.

(** ** Every value encodes uniformly *)

Section Object_induction.

Variable P : Object -> Prop.
Hypothesis P_Nil : P Nil.
Hypothesis P_Boolean : forall b, P (Boolean b).
Hypothesis P_Integer : forall i, P (Integer i).
Hypothesis P_Real : forall t, P (Real t).
Hypothesis P_LiteralString : forall t, P (LiteralString t).
Hypothesis P_HexString : forall b, P (HexString b).
Hypothesis P_Name : forall n, P (Name n).
Hypothesis P_Array : forall a, Forall P a -> P (Array a).
Hypothesis P_Dict : forall d, Forall (fun kv => P kv.2) d -> P (Dict d).
Hypothesis P_Stream : forall l d, P (Stream l d).
Hypothesis P_Indirect : forall n o, P o -> P (Indirect n o).
Hypothesis P_Reference : forall r, P (Reference r).

Lemma Object_nested_ind : forall o, P o.
Proof.
  exact (fix IH (o : Object) : P o :=
    match o with
    | Nil => P_Nil
    | Boolean b => P_Boolean b
    | Integer i => P_Integer i
    | Real t => P_Real t
    | LiteralString t => P_LiteralString t
    | HexString b => P_HexString b
    | Name n => P_Name n
    | Array a =>
        P_Array a
          ((fix all (l : list Object) : Forall P l :=
              match l with
              | [] => Forall_nil_2 P
              | x :: l' => Forall_cons_2 P x l' (IH x) (all l')
              end) a)
    | Dict d =>
        P_Dict d
          ((fix all (l : list (string * Object)) : Forall (fun kv => P kv.2) l :=
              match l with
              | [] => Forall_nil_2 _
              | (k, v) :: l' =>
                  Forall_cons_2 (fun kv => P kv.2) (k, v) l' (IH v) (all l')
              end) d)
    | Stream l d => P_Stream l d
    | Indirect n o' => P_Indirect n o' (IH o')
    | Reference r => P_Reference r
    end).
Qed.

End Object_induction.

Lemma uniform_iface_of o : uniform (encode o) -> uniform_iface (iface o).
Proof. intros H. destruct o; try exact H. exact I. Qed.

Lemma iface_Some o e : iface o = Some e -> e = encode o.
Proof. destruct o; cbn; congruence. Qed.

Lemma uniform_encode o : uniform (encode o).
Proof.
  induction o using Object_nested_ind; intros n0 m0.
  - exists [], n0, m0, Panic. intros W ops V s R Hg Hn Hm. exists s.
    split; [reflexivity|]. split; [exact Hg|]. split; [by rewrite app_nil_r|].
    split; assumption.
  - do 4 eexists. apply renders_Boolean.
  - do 4 eexists. apply renders_Integer.
  - do 4 eexists. apply renders_Real.
  - do 4 eexists. apply renders_LiteralString.
  - do 4 eexists. apply renders_HexString.
  - do 4 eexists. apply renders_Name.
  - do 4 eexists. change (encode (Array a)) with (fun W ops => @Array_encode W ops (map iface a)).
    apply renders_Array. apply Forall_map. eapply Forall_impl; [exact H|].
    intros o. apply uniform_iface_of.
  - do 4 eexists.
    change (encode (Dict d))
      with (fun W ops => @Dict_encode W ops (map (fun '(k, v) => (k, iface v)) d)).
    apply renders_Dict. apply Forall_map. eapply Forall_impl; [exact H|].
    intros [k v]. apply uniform_iface_of.
  - do 4 eexists. apply renders_Stream.
  - change (encode (Indirect n o)) with (fun W ops => @Indirect_encode W ops n (iface o)).
    destruct (objName_table n n0 m0) as [[n1 m1] id] eqn:Ht.
    destruct (iface o) as [e|] eqn:Hi.
    + apply iface_Some in Hi. subst e.
      destruct (IHo n1 m1) as (out & n2 & m2 & r & He).
      do 4 eexists. eapply renders_Indirect; [exact Ht|exact He].
    + do 4 eexists. eapply renders_Indirect_nil. exact Ht.
  - destruct (objName_table r n0 m0) as [[n1 m1] id] eqn:Ht.
    do 4 eexists. eapply renders_Reference. exact Ht.
Qed.

Lemma uniform_iface_all o : uniform_iface (iface o).
Proof. apply uniform_iface_of, uniform_encode. Qed.

(** On a reliable writer [EncodeObject] appends [rendered obj] to what
    the writer holds and returns [outcome obj]. *)
Lemma EncodeObject_reliable {W} (ops : io.Writer W) (V : View W) w0 obj :
  reliable ops V -> good V w0 ->
  exists w1, EncodeObject ops w0 obj = (w1, outcome obj)
             /\ good V w1 /\ content V w1 = content V w0 ++ rendered obj.
Proof.
  intros R Hg.
  exact (EncodeObject_iface_reliable (iface obj) (uniform_iface_all obj) W ops V w0 R Hg).
Qed.

Lemma EncodeObject_Buffer out obj :
  EncodeObject Buffer out obj = (out ++ rendered obj, outcome obj).
Proof.
  destruct (EncodeObject_reliable Buffer Buffer_view out obj Buffer_reliable I)
    as (w1 & -> & _ & Hc).
  cbn in Hc. by rewrite Hc.
Qed.

(** ** Examples of the library models and of the encoder *)

Example int_v_examples :
  fmt.int_v 0 = str "0" /\ fmt.int_v 1234 = str "1234" /\ fmt.int_v (-5) = str "-5".
Proof. repeat split; reflexivity. Qed.

Example int_X_examples :
  fmt.int_X 9 = str "9" /\ fmt.int_X 32 = str "20" /\ fmt.int_X 8364 = str "20AC"
  /\ fmt.int_X 0 = str "0" /\ fmt.int_X 255 = str "FF" /\ fmt.int_X 256 = str "100".
Proof. repeat split; reflexivity. Qed.

Example range_examples :
  utf8.range "a#b" = [97; 35; 98]
  /\ utf8.range (String (byte_of 226) (String (byte_of 130) (String (byte_of 172) "!")))
     = [8364; 33]
  /\ utf8.range (String (byte_of 255) "a") = [65533; 97].
Proof. repeat split; reflexivity. Qed.

Example encode_catalog :
  EncodeObject Buffer []
    (Indirect "Catalog" (Dict [("Type"%string, Name "Catalog")]))
  = (str "0 0 obj" ++ [LF] ++ str "<<" ++ [LF] ++ str "/Type /Catalog" ++ [LF]
     ++ str ">>" ++ [LF] ++ str "endobj" ++ [LF], Done None).
Proof. vm_compute. reflexivity. Qed.

(** ** What the values render to in a buffer *)

Lemma rendered_Boolean b :
  rendered (Boolean b) = fmt.bool_v b /\ outcome (Boolean b) = Done None.
Proof. exact (rendered_of_renders _ _ _ _ _ (renders_Boolean b 0 None)). Qed.

Lemma rendered_HexString b :
  rendered (HexString b) = str "<" ++ fmt.bytes_X b ++ str ">"
  /\ outcome (HexString b) = Done None.
Proof. exact (rendered_of_renders _ _ _ _ _ (renders_HexString b 0 None)). Qed.

Lemma rendered_LiteralString text :
  rendered (LiteralString text) = str "(" ++ escaped (str text) ++ str ")"
  /\ outcome (LiteralString text) = Done None.
Proof. exact (rendered_of_renders _ _ _ _ _ (renders_LiteralString text 0 None)). Qed.

Lemma rendered_Name x :
  rendered (Name x) = str "/" ++ flat_map Name_rune (utf8.range x)
  /\ outcome (Name x) = Done None.
Proof. exact (rendered_of_renders _ _ _ _ _ (renders_Name x 0 None)). Qed.

Lemma rendered_Array a :
  rendered (Array a)
  = str "[" ++ Array_out [] (map iface a) ++ closing (Array_res (map iface a)) (str "]")
  /\ outcome (Array a) = Array_res (map iface a).
Proof.
  refine (rendered_of_renders _ _ _ _ _ (renders_Array (map iface a) 0 None _)).
  apply Forall_map, Forall_forall. intros o _. apply uniform_iface_all.
Qed.

Lemma rendered_Dict d :
  rendered (Dict d)
  = str "<<" ++ Dict_out (map (fun '(k, v) => (k, iface v)) d)
    ++ closing (Dict_res (map (fun '(k, v) => (k, iface v)) d)) (LF :: str ">>")
  /\ outcome (Dict d) = Dict_res (map (fun '(k, v) => (k, iface v)) d).
Proof.
  refine (rendered_of_renders _ _ _ _ _
            (renders_Dict (map (fun '(k, v) => (k, iface v)) d) 0 None _)).
  apply Forall_map, Forall_forall. intros [k v] _. apply uniform_iface_all.
Qed.

Lemma rendered_Stream Length Data :
  rendered (Stream Length Data)
  = rendered_iface (Length_dict Length) ++ (LF :: str "stream" ++ [LF])
    ++ take (Z.to_nat Length) Data
    ++ match CopyN_err Data Length with
       | None => LF :: str "endstream" ++ [LF]
       | Some _ => []
       end
  /\ outcome (Stream Length Data) = Done (CopyN_err Data Length).
Proof. exact (rendered_of_renders _ _ _ _ _ (renders_Stream Length Data 0 None)). Qed.

(** ** Hexadecimal strings *)

Lemma bytes_X_length b : length (fmt.bytes_X b) = (2 * length b)%nat.
Proof.
  induction b as [|c b IH]; [reflexivity|].
  unfold fmt.bytes_X in *. cbn [flat_map length app]. rewrite IH. lia.
Qed.

Lemma hex_digits_of_byte c :
  fmt.upper_hex_digit (byte_val c / 16) ∈ str "0123456789ABCDEF"
  /\ fmt.upper_hex_digit (byte_val c `mod` 16) ∈ str "0123456789ABCDEF".
Proof.
  destruct c as [[] [] [] [] [] [] [] []];
    split; apply list_elem_of_In; vm_compute; tauto.
Qed.

Lemma bytes_X_upper_hex b :
  Forall (fun c => c ∈ str "0123456789ABCDEF") (fmt.bytes_X b).
Proof.
  induction b as [|c b IH]; [constructor|].
  unfold fmt.bytes_X in *. cbn [flat_map app].
  destruct (hex_digits_of_byte c) as [Hhi Hlo].
  constructor; [exact Hhi|]. constructor; [exact Hlo|exact IH].
Qed.

(** C7.  For every byte sequence [b], encoding [HexString b] writes [<],
    two upper-case hexadecimal digits for each byte of [b] and nothing
    between them, then [>]: [2 * len(b) + 2] bytes in all, and everything
    between the angle brackets is an upper-case hexadecimal digit. *)
Theorem HexString_rendering (b : bytes) :
  EncodeObject Buffer [] (HexString b)
  = (str "<" ++ fmt.bytes_X b ++ str ">", Done None)
  /\ fmt.bytes_X b
     = flat_map (fun c => [fmt.upper_hex_digit (byte_val c / 16);
                           fmt.upper_hex_digit (byte_val c `mod` 16)]) b
  /\ length (EncodeObject Buffer [] (HexString b)).1 = (2 * length b + 2)%nat
  /\ Forall (fun c => c ∈ str "0123456789ABCDEF") (fmt.bytes_X b).
Proof.
  destruct (rendered_HexString b) as [Hr Ho].
  rewrite EncodeObject_Buffer, Hr, Ho.
  split; [reflexivity|]. split; [reflexivity|]. split.
  - cbn [fst app str list_ascii_of_string length].
    rewrite length_app, bytes_X_length. cbn. lia.
  - apply bytes_X_upper_hex.
Qed.

(** ** Names *)

Lemma byte_of_val c : byte_of (byte_val c) = c.
Proof. unfold byte_of, byte_val. rewrite N2Z.id. apply ascii_N_embedding. Qed.

Lemma range_printable l :
  Forall printable l -> utf8.range_go 0 (map byte_val l) = map byte_val l.
Proof.
  induction 1 as [|c l Hc Hl IH]; [reflexivity|].
  cbn [map utf8.range_go utf8.DecodeRune].
  destruct (byte_val c <? 128) eqn:Hlt.
  - cbn [Nat.pred]. by rewrite IH.
  - apply Z.ltb_ge in Hlt. unfold printable in Hc. lia.
Qed.

Lemma Name_rune_printable c : printable c -> Name_rune (byte_val c) = Name_char c.
Proof.
  unfold printable, Name_rune, Name_char, rune_bytes. intros Hc.
  replace ((byte_val c <? 33) || (126 <? byte_val c)) with false
    by (symmetry; apply orb_false_iff; split; [apply Z.ltb_ge|apply Z.ltb_ge]; lia).
  replace ((0 <=? byte_val c) && (byte_val c <? 128)) with true
    by (symmetry; apply andb_true_iff; split; [apply Z.leb_le|apply Z.ltb_lt]; lia).
  rewrite byte_of_val.
  destruct (byte_val c =? 35) eqn:He.
  - apply Z.eqb_eq in He. rewrite decide_True; [reflexivity|].
    rewrite <- (byte_of_val c), He. reflexivity.
  - apply Z.eqb_neq in He. rewrite decide_False; [reflexivity|].
    intros ->. apply He. reflexivity.
Qed.

Lemma Name_char_plain l :
  Forall (fun c => c <> "#"%char) l -> flat_map Name_char l = l.
Proof.
  induction 1 as [|c l Hc Hl IH]; [reflexivity|].
  cbn [flat_map]. unfold Name_char at 1. rewrite decide_False by exact Hc.
  cbn. by rewrite IH.
Qed.

(** C6.  For a name [x] made of printable ASCII characters only
    (['!'..'~']), encoding [Name x] writes [/] and then [x] with every [#]
    replaced by [#23] and every other character as it is; when [x] has no
    [#] the output is [/] followed by [x]. *)
Theorem Name_printable_rendering (x : string)
    (Hx : Forall printable (str x)) :
  EncodeObject Buffer [] (Name x)
  = (str "/" ++ flat_map Name_char (str x), Done None)
  /\ (Forall (fun c => c <> "#"%char) (str x) ->
      EncodeObject Buffer [] (Name x) = (str "/" ++ str x, Done None)).
Proof.
  destruct (rendered_Name x) as [Hr Ho].
  assert (Hout : EncodeObject Buffer [] (Name x)
                 = (str "/" ++ flat_map Name_char (str x), Done None)).
  { rewrite EncodeObject_Buffer, Hr, Ho. cbn [app]. do 2 f_equal.
    unfold utf8.range. rewrite (range_printable _ Hx).
    induction Hx as [|c l Hc Hl IH]; [reflexivity|].
    cbn [map flat_map]. by rewrite IH, Name_rune_printable. }
  split; [exact Hout|].
  intros Hplain. by rewrite Hout, Name_char_plain.
Qed.

Lemma Name_printable_rendering_witness :
  Forall printable (str "A#b")
  /\ EncodeObject Buffer [] (Name "A#b") = (str "/A#23b", Done None).
Proof.
  assert (H : Forall printable (str "A#b")).
  { repeat constructor; vm_compute; intros H; discriminate H. }
  split; [exact H|].
  exact (proj1 (Name_printable_rendering "A#b" H)).
Defined.

(** C4.  A character below [0x10] is escaped with a single hexadecimal
    digit, and one above [0xFF] with more than two: the tab becomes [#9]
    and the euro sign [#20AC]. *)
Theorem Name_escape_not_two_digits :
  EncodeObject Buffer [] (Name (String "009"%char ""))
  = (str "/#9", Done None)
  /\ EncodeObject Buffer []
       (Name (String (byte_of 226) (String (byte_of 130) (String (byte_of 172) ""))))
     = (str "/#20AC", Done None)
  /\ EncodeObject Buffer [] (Name " ") = (str "/#20", Done None).
Proof. repeat split; vm_compute; reflexivity. Qed.

(** ** Arrays and dictionaries *)

Lemma Array_all_succeed a :
  Forall succeeds a ->
  Array_res (map iface a) = Done None
  /\ forall spacing,
       Array_out spacing (map iface a)
       = match a with
         | [] => []
         | _ => spacing ++ join (str " ") (map rendered a)
         end.
Proof.
  induction 1 as [|o a Ho Ha [IHr IHo]]; [split; reflexivity|].
  cbn [map Array_res Array_out].
  change (outcome_iface (iface o)) with (outcome o).
  change (rendered_iface (iface o)) with (rendered o).
  rewrite Ho. split; [exact IHr|].
  intros spacing. rewrite IHo. destruct a as [|o' a'].
  - cbn. by rewrite app_nil_r.
  - reflexivity.
Qed.

(** C8.  The empty array encodes as [[]] and the empty dictionary as
    [<<], a newline, [>>]; an array whose elements all encode encodes as
    [[], the elements with exactly one space between neighbours, []]: no
    space after the opening bracket and none before the closing one. *)
Theorem Array_Dict_rendering (a : list Object) (Ha : Forall succeeds a) :
  EncodeObject Buffer [] (Array []) = (str "[]", Done None)
  /\ EncodeObject Buffer [] (Dict []) = (str "<<" ++ [LF] ++ str ">>", Done None)
  /\ EncodeObject Buffer [] (Array a)
     = (str "[" ++ join (str " ") (map rendered a) ++ str "]", Done None).
Proof.
  split; [reflexivity|]. split; [reflexivity|].
  destruct (rendered_Array a) as [Hr Ho].
  destruct (Array_all_succeed a Ha) as [Hres Hout].
  rewrite EncodeObject_Buffer, Hr, Ho, Hres, Hout. cbn [closing app].
  destruct a; reflexivity.
Qed.

Lemma Array_Dict_rendering_witness :
  Forall succeeds [Integer 1; Name "x"; Nil; Array [Boolean true]]
  /\ EncodeObject Buffer [] (Array [Integer 1; Name "x"; Nil; Array [Boolean true]])
     = (str "[1 /x null [true]]", Done None).
Proof.
  assert (H : Forall succeeds [Integer 1; Name "x"; Nil; Array [Boolean true]]).
  { repeat constructor. }
  split; [exact H|].
  exact (proj2 (proj2 (Array_Dict_rendering _ H))).
Defined.

(** ** Streams *)

Lemma CopyN_err_enough Data n :
  0 <= n -> n <= Z.of_nat (length Data) -> CopyN_err Data n = None.
Proof.
  intros H0 Hn. unfold CopyN_err. rewrite length_take.
  rewrite Nat.min_l by lia. rewrite Z2Nat.id by lia. by rewrite Z.eqb_refl.
Qed.

Lemma CopyN_err_short Data n :
  Z.of_nat (length Data) < n ->
  CopyN_err Data n = Some io_EOF /\ take (Z.to_nat n) Data = Data.
Proof.
  intros Hn. unfold CopyN_err. rewrite take_ge by lia. split; [|reflexivity].
  destruct (Z.of_nat (length Data) =? n) eqn:He; [apply Z.eqb_eq in He; lia|].
  destruct (Z.of_nat (length Data) <? n) eqn:Hl; [reflexivity|].
  apply Z.ltb_ge in Hl. lia.
Qed.

(** C3.  A stream of declared length [N]: the dictionary with the single
    entry [Length = N] comes first.  When the data source has at least [N]
    bytes the encoding succeeds and the first [N] of them stand between
    the [stream] and [endstream] markers; when it has fewer the encoding
    returns [io.EOF] (the truncated-stream error), the bytes there were
    follow the [stream] marker and no [endstream] marker is written. *)
Theorem Stream_rendering (N : Z) (Data : bytes) (HN : 0 <= N) :
  rendered (Dict [("Length"%string, Integer N)])
  = str "<<" ++ [LF] ++ str "/Length " ++ fmt.int_v N ++ [LF] ++ str ">>"
  /\ EncodeObject Buffer [] (Stream N Data)
     = if decide (N <= Z.of_nat (length Data))
       then (rendered (Dict [("Length"%string, Integer N)])
             ++ (LF :: str "stream" ++ [LF])
             ++ take (Z.to_nat N) Data
             ++ (LF :: str "endstream" ++ [LF]), Done None)
       else (rendered (Dict [("Length"%string, Integer N)])
             ++ (LF :: str "stream" ++ [LF]) ++ Data, Done (Some io_EOF)).
Proof.
  change (rendered (Dict [("Length"%string, Integer N)]))
    with (rendered_iface (Length_dict N)).
  split; [exact (proj1 (rendered_Length_dict N))|].
  destruct (rendered_Stream N Data) as [Hr Ho].
  rewrite EncodeObject_Buffer, Hr, Ho. cbn [app].
  destruct (decide (N <= Z.of_nat (length Data))) as [Hle|Hgt].
  - by rewrite (CopyN_err_enough Data N HN Hle).
  - destruct (CopyN_err_short Data N ltac:(lia)) as [-> ->].
    by rewrite app_nil_r.
Qed.

Lemma Stream_rendering_witness :
  0 <= 7
  /\ EncodeObject Buffer [] (Stream 7 (str "abcde"))
     = (str "<<" ++ [LF] ++ str "/Length 7" ++ [LF] ++ str ">>"
        ++ [LF] ++ str "stream" ++ [LF] ++ str "abcde", Done (Some io_EOF)).
Proof.
  split; [lia|].
  exact (proj2 (Stream_rendering 7 (str "abcde") ltac:(lia))).
Defined.

Example Stream_complete :
  EncodeObject Buffer [] (Stream 3 (str "abcde"))
  = (str "<<" ++ [LF] ++ str "/Length 3" ++ [LF] ++ str ">>"
     ++ [LF] ++ str "stream" ++ [LF] ++ str "abc" ++ [LF] ++ str "endstream" ++ [LF],
     Done None).
Proof. vm_compute. reflexivity. Qed.

(** ** Identifiers *)

(** C1.  Every [EncodeObject] call starts from an empty name table, and
    [Array.encode], [Dict.encode] and [Encode] go through [EncodeObject]
    for each element, entry and body object: two different names in one
    array both get id 0, a reference inside a dictionary gets the id of
    the object that holds it, and every object of a document is object 0. *)
Theorem ids_restart_in_nested_EncodeObject :
  EncodeObject Buffer [] (Array [Reference "a"; Reference "b"])
  = (str "[0 0 R 0 0 R]", Done None)
  /\ EncodeObject Buffer [] (Indirect "a" (Dict [("Next"%string, Reference "b")]))
     = (str "0 0 obj" ++ [LF] ++ str "<<" ++ [LF] ++ str "/Next 0 0 R" ++ [LF]
        ++ str ">>" ++ [LF] ++ str "endobj" ++ [LF], Done None)
  /\ Encode Buffer []
       (Some {| Body := [("a"%string, Integer 1); ("b"%string, Reference "a")] |})
     = (str "%PDF-1.7" ++ [LF]
        ++ str "0 0 obj" ++ [LF] ++ str "1" ++ [LF] ++ str "endobj" ++ [LF]
        ++ str "0 0 obj" ++ [LF] ++ str "1 0 R" ++ [LF] ++ str "endobj" ++ [LF]
        ++ str "%%EOF", Done None).
Proof. repeat split; vm_compute; reflexivity. Qed.

(** Directly nested values share the table of the enclosing object. *)
Example ids_shared_in_direct_nesting :
  EncodeObject Buffer [] (Indirect "a" (Indirect "b" (Reference "a")))
  = (str "0 0 obj" ++ [LF] ++ str "1 0 obj" ++ [LF] ++ str "0 0 R"
     ++ [LF] ++ str "endobj" ++ [LF] ++ [LF] ++ str "endobj" ++ [LF], Done None).
Proof. vm_compute. reflexivity. Qed.

(** ** What survives the writes

    A property of the underlying writer that every [Write] keeps is kept
    by the buffered writer and by the state on top of it. *)

Section bufio_preserves.

Context {W : Type} (ops : io.Writer W) (Q0 : W -> Prop).
Hypothesis HQ0 : forall p w0, Q0 w0 -> Q0 (io.Write ops p w0).1.

Ltac underlying :=
  match goal with
  | H : Q0 ?x |- context [io.Write ops ?p ?x] =>
      let H1 := fresh "HQ" in
      pose proof (HQ0 p x H) as H1;
      destruct (io.Write ops p x) as [? [? [?|]]]; cbn [fst snd] in H1 |- *
  end.

Lemma Flush_preserves b :
  Q0 (bufio.wr b) -> Q0 (bufio.wr (bufio.Flush ops b).1).
Proof.
  intros H. unfold bufio.Flush.
  destruct (bufio.err b); [exact H|].
  destruct (bufio.buf b); [exact H|].
  underlying; exact HQ.
Qed.

Lemma direct_preserves p b nn :
  Q0 (bufio.wr b) -> Q0 (bufio.wr (bufio.direct ops p b nn).1).
Proof. intros H. unfold bufio.direct. underlying; exact HQ. Qed.

Lemma bufio_Write_preserves p b :
  Q0 (bufio.wr b) -> Q0 (bufio.wr (bufio.Write ops p b).1).
Proof.
  intros H. unfold bufio.Write.
  destruct (bufio.err b); [exact H|].
  destruct (length p <=? bufio.Available b)%nat; [exact H|].
  destruct (bufio.buf b) as [|c l]; [by apply direct_preserves|].
  match goal with
  | |- context [bufio.Flush ops ?b0] =>
      pose proof (Flush_preserves b0 H) as HF;
      destruct (bufio.Flush ops b0) as [b1 [e|]]; cbn [fst snd] in HF |- *
  end; [exact HF|].
  destruct (_ <=? _)%nat; [exact HF|]. by apply direct_preserves.
Qed.

Lemma bufio_WriteByte_preserves c b :
  Q0 (bufio.wr b) -> Q0 (bufio.wr (bufio.WriteByte ops c b).1).
Proof.
  intros H. unfold bufio.WriteByte.
  destruct (bufio.err b); [exact H|].
  destruct (bufio.Available b =? 0)%nat; [|exact H].
  pose proof (Flush_preserves b H) as HF.
  destruct (bufio.Flush ops b) as [b1 [e|]]; exact HF.
Qed.

Lemma bufio_WriteRune_preserves r b :
  Q0 (bufio.wr b) -> Q0 (bufio.wr (bufio.WriteRune ops r b).1).
Proof.
  intros H. unfold bufio.WriteRune.
  destruct ((0 <=? r) && (r <? 128)).
  - pose proof (bufio_WriteByte_preserves (byte_of r) b H) as HB.
    destruct (bufio.WriteByte ops (byte_of r) b) as [b1 [e|]]; exact HB.
  - destruct (bufio.err b); [exact H|].
    destruct (bufio.Available b <? 4)%nat; [|exact H].
    pose proof (Flush_preserves b H) as HF.
    destruct (bufio.Flush ops b) as [b1 [e|]]; exact HF.
Qed.

Lemma methods_preserve_underlying :
  methods_preserve ops (fun s => Q0 (bufio.wr (w s))).
Proof.
  intros s H. repeat split.
  - intros p. unfold Write. destruct (err s); [exact H|].
    pose proof (bufio_Write_preserves p (w s) H) as HB.
    destruct (bufio.Write ops p (w s)) as [b1 [n e]]; exact HB.
  - intros p. unfold WriteString, bufio.WriteString. destruct (err s); [exact H|].
    pose proof (bufio_Write_preserves p (w s) H) as HB.
    destruct (bufio.Write ops p (w s)) as [b1 [n e]]; exact HB.
  - intros c. unfold WriteByte. destruct (err s); [exact H|].
    pose proof (bufio_WriteByte_preserves c (w s) H) as HB.
    destruct (bufio.WriteByte ops c (w s)) as [b1 e]; exact HB.
  - intros r. unfold WriteRune. destruct (err s); [exact H|].
    pose proof (bufio_WriteRune_preserves r (w s) H) as HB.
    destruct (bufio.WriteRune ops r (w s)) as [b1 [n e]]; exact HB.
  - intros name. unfold objName.
    destruct (_ !! name); exact H.
Qed.

Lemma Close_preserves s :
  Q0 (bufio.wr (w s)) -> Q0 (bufio.wr (w (Close ops s).1)).
Proof.
  intros H. unfold Close. destruct (err s); [exact H|].
  pose proof (Flush_preserves (w s) H) as HF.
  destruct (bufio.Flush ops (w s)) as [b1 e]; exact HF.
Qed.

End bufio_preserves.

Lemma EncodeObject_iface_preserves o :
  preserving_iface o ->
  forall W (ops : io.Writer W) (Q0 : W -> Prop),
    (forall p w0, Q0 w0 -> Q0 (io.Write ops p w0).1) ->
    forall w0, Q0 w0 -> Q0 (EncodeObject_iface ops w0 o).1.
Proof.
  intros Ho W ops Q0 HQ0 w0 H0. unfold EncodeObject_iface.
  destruct o as [e|].
  - set (ew := mkState (bufio.NewWriter w0) None 0 None).
    pose proof (Ho W ops (fun s => Q0 (bufio.wr (w s)))
                  (methods_preserve_underlying ops Q0 HQ0) ew H0) as H1.
    destruct (e W ops ew) as [ew1 r]. cbn [fst] in H1.
    pose proof (Close_preserves ops Q0 HQ0 ew1 H1) as H2.
    destruct (Close ops ew1) as [ew2 cerr]. exact H2.
  - unfold io.WriteString. pose proof (HQ0 (str "null") w0 H0) as H1.
    destruct (io.Write ops (str "null") w0) as [w1 [n e]]. exact H1.
Qed.

Section encoders_preserve.

Context {W : Type} (ops : io.Writer W) (Q : encodeState W -> Prop).
Hypothesis HM : methods_preserve ops Q.

Ltac method :=
  match goal with
  | H : Q ?s |- context [Write ops ?p ?s] =>
      let H1 := fresh "HQ" in
      pose proof (proj1 (HM s H) p) as H1;
      destruct (Write ops p s) as [? [? [?|]]]; cbn [fst snd] in H1 |- *
  | H : Q ?s |- context [WriteString ops ?p ?s] =>
      let H1 := fresh "HQ" in
      pose proof (proj1 (proj2 (HM s H)) p) as H1;
      destruct (WriteString ops p s) as [? [? [?|]]]; cbn [fst snd] in H1 |- *
  | H : Q ?s |- context [WriteByte ops ?c ?s] =>
      let H1 := fresh "HQ" in
      pose proof (proj1 (proj2 (proj2 (HM s H))) c) as H1;
      destruct (WriteByte ops c s) as [? [?|]]; cbn [fst snd] in H1 |- *
  | H : Q ?s |- context [WriteRune ops ?r ?s] =>
      let H1 := fresh "HQ" in
      pose proof (proj1 (proj2 (proj2 (proj2 (HM s H)))) r) as H1;
      destruct (WriteRune ops r s) as [? [? [?|]]]; cbn [fst snd] in H1 |- *
  | H : Q ?s |- context [objName ?name ?s] =>
      let H1 := fresh "HQ" in
      pose proof (proj2 (proj2 (proj2 (proj2 (HM s H)))) name) as H1;
      destruct (objName name s) as [? ?]; cbn [fst snd] in H1 |- *
  end.

Lemma Write_keeps p s : Q s -> Q (Write ops p s).1.
Proof. intros H. exact (proj1 (HM s H) p). Qed.

Lemma nested_preserves o s :
  preserving_iface o -> Q s ->
  Q (EncodeObject_iface (encodeState_Writer ops) s o).1.
Proof.
  intros Ho H.
  exact (EncodeObject_iface_preserves o Ho _ (encodeState_Writer ops) Q Write_keeps s H).
Qed.

Ltac nested Ho :=
  match goal with
  | H : Q ?s |- context [EncodeObject_iface (encodeState_Writer ops) ?s ?o] =>
      let H1 := fresh "HQ" in
      pose proof (nested_preserves o s Ho H) as H1;
      destruct (EncodeObject_iface (encodeState_Writer ops) s o) as [? [[?|]|]];
      cbn [fst snd] in H1 |- *
  end.

Lemma Boolean_preserves b s : Q s -> Q (Boolean_encode ops b s).1.
Proof. intros H. unfold Boolean_encode. method; assumption. Qed.

Lemma Integer_preserves i s : Q s -> Q (Integer_encode ops i s).1.
Proof. intros H. unfold Integer_encode. method; assumption. Qed.

Lemma Real_preserves text s : Q s -> Q (Real_encode ops text s).1.
Proof. intros H. unfold Real_encode. method; assumption. Qed.

Lemma HexString_preserves b s : Q s -> Q (HexString_encode ops b s).1.
Proof. intros H. unfold HexString_encode. method; assumption. Qed.

Lemma Replacer_go_preserves text :
  forall last s n, Q s -> Q (strings.Replacer_go (Write ops) (WriteString ops) last text s n).1.
Proof.
  induction text as [|c text IH]; intros last s n H; cbn [strings.Replacer_go].
  - destruct last; [exact H|]. method; assumption.
  - destruct (strings.replacement c); [|by apply IH].
    destruct last.
    + method; [assumption|]. by apply IH.
    + method; [assumption|]. method; [assumption|]. by apply IH.
Qed.

Lemma LiteralString_preserves text s : Q s -> Q (LiteralString_encode ops text s).1.
Proof.
  intros H. unfold LiteralString_encode, strings.Replacer_WriteString.
  method.
  - pose proof (Replacer_go_preserves (str text) [] e 0%nat HQ) as HR.
    destruct (strings.Replacer_go (Write ops) (WriteString ops) [] (str text) e 0%nat) as [s2 r2].
    cbn [fst] in HR. method; assumption.
  - pose proof (Replacer_go_preserves (str text) [] e 0%nat HQ) as HR.
    destruct (strings.Replacer_go (Write ops) (WriteString ops) [] (str text) e 0%nat) as [s2 r2].
    cbn [fst] in HR. method; assumption.
Qed.

Lemma Name_loop_preserves rs : forall s, Q s -> Q (Name_encode_loop ops rs s).1.
Proof.
  induction rs as [|r rs IH]; intros s H; cbn [Name_encode_loop]; [exact H|].
  destruct ((r <? 33) || (126 <? r)); [|destruct (r =? 35)];
    method; try assumption; by apply IH.
Qed.

Lemma Name_preserves x s : Q s -> Q (Name_encode ops x s).1.
Proof.
  intros H. unfold Name_encode. method; by apply Name_loop_preserves.
Qed.

Lemma Array_loop_preserves a :
  Forall preserving_iface a ->
  forall spacing s, Q s -> Q (Array_encode_loop ops spacing a s).1.
Proof.
  induction 1 as [|o a Ho Ha IH]; intros spacing s H; cbn [Array_encode_loop];
    [exact H|].
  method; [assumption|]. nested Ho; try assumption. by apply IH.
Qed.

Lemma Array_preserves a s :
  Forall preserving_iface a -> Q s -> Q (Array_encode ops a s).1.
Proof.
  intros Ha H. unfold Array_encode.
  method;
    match goal with
    | H1 : Q ?s1 |- context [Array_encode_loop ops ?l a ?s1] =>
        pose proof (Array_loop_preserves a Ha l s1 H1) as HL;
        destruct (Array_encode_loop ops l a s1) as [? [[?|]|]]; cbn [fst] in HL |- *
    end; try assumption; method; assumption.
Qed.

End encoders_preserve.

Lemma preserving_Name k : preserving_iface (Name_obj k).
Proof. intros W ops Q HM s H. by apply Name_preserves. Qed.

Lemma preserving_Integer i : preserving_iface (Integer_obj i).
Proof. intros W ops Q HM s H. by apply Integer_preserves. Qed.

Section containers_preserve.

Context {W : Type} (ops : io.Writer W) (Q : encodeState W -> Prop).
Hypothesis HM : methods_preserve ops Q.

Ltac method :=
  match goal with
  | H : Q ?s |- context [Write ops ?p ?s] =>
      let H1 := fresh "HQ" in
      pose proof (proj1 (HM s H) p) as H1;
      destruct (Write ops p s) as [? [? [?|]]]; cbn [fst snd] in H1 |- *
  | H : Q ?s |- context [WriteString ops ?p ?s] =>
      let H1 := fresh "HQ" in
      pose proof (proj1 (proj2 (HM s H)) p) as H1;
      destruct (WriteString ops p s) as [? [? [?|]]]; cbn [fst snd] in H1 |- *
  | H : Q ?s |- context [WriteByte ops ?c ?s] =>
      let H1 := fresh "HQ" in
      pose proof (proj1 (proj2 (proj2 (HM s H))) c) as H1;
      destruct (WriteByte ops c s) as [? [?|]]; cbn [fst snd] in H1 |- *
  | H : Q ?s |- context [objName ?name ?s] =>
      let H1 := fresh "HQ" in
      pose proof (proj2 (proj2 (proj2 (proj2 (HM s H)))) name) as H1;
      destruct (objName name s) as [? ?]; cbn [fst snd] in H1 |- *
  end.

Ltac nested Ho :=
  match goal with
  | H : Q ?s |- context [EncodeObject_iface (encodeState_Writer ops) ?s ?o] =>
      let H1 := fresh "HQ" in
      pose proof (nested_preserves ops Q HM o s Ho H) as H1;
      destruct (EncodeObject_iface (encodeState_Writer ops) s o) as [? [[?|]|]];
      cbn [fst snd] in H1 |- *
  end.

Lemma Dict_loop_preserves d :
  Forall (fun kv => preserving_iface kv.2) d ->
  forall s, Q s -> Q (Dict_encode_loop ops d s).1.
Proof.
  induction 1 as [|[k v] d Hv Hd IH]; intros s H; cbn [Dict_encode_loop];
    [exact H|].
  method; (nested (preserving_Name k); try assumption;
           method; (nested Hv; try assumption; by apply IH)).
Qed.

Lemma Dict_preserves d s :
  Forall (fun kv => preserving_iface kv.2) d -> Q s -> Q (Dict_encode ops d s).1.
Proof.
  intros Hd H. unfold Dict_encode.
  method;
    match goal with
    | H1 : Q ?s1 |- context [Dict_encode_loop ops d ?s1] =>
        pose proof (Dict_loop_preserves d Hd s1 H1) as HL;
        destruct (Dict_encode_loop ops d s1) as [? [[?|]|]]; cbn [fst] in HL |- *
    end; try assumption; method; assumption.
Qed.

Lemma copy_chunks_preserves cs :
  forall s written, Q s -> Q (io.copy_chunks (Write ops) cs s written).1.
Proof.
  induction cs as [|c cs IH]; intros s written H; cbn [io.copy_chunks]; [exact H|].
  method; [assumption|]. by apply IH.
Qed.

Lemma CopyN_preserves src n s : Q s -> Q (io.CopyN (Write ops) s src n).1.
Proof.
  intros H. unfold io.CopyN.
  match goal with
  | |- context [io.copy_chunks (Write ops) ?cs s 0] =>
      pose proof (copy_chunks_preserves cs s 0 H) as HC;
      destruct (io.copy_chunks (Write ops) cs s 0) as [s1 [written e]]
  end.
  cbn [fst] in HC. destruct (written =? n); [exact HC|].
  destruct (_ && _); exact HC.
Qed.

Lemma Reference_preserves r s : Q s -> Q (Reference_encode ops r s).1.
Proof.
  intros H. unfold Reference_encode, Integer_encode.
  method. method; try assumption. method; assumption.
Qed.

Lemma Indirect_preserves name o s :
  preserving_iface o -> Q s -> Q (Indirect_encode ops name o s).1.
Proof.
  intros Ho H. unfold Indirect_encode, Integer_encode.
  method. method; try assumption.
  method;
    (destruct o as [enc|]; [|assumption];
     match goal with
     | H1 : Q ?s1 |- context [enc W ops ?s1] =>
         pose proof (Ho W ops Q HM s1 H1) as HE;
         destruct (enc W ops s1) as [? [[?|]|]]; cbn [fst] in HE |- *
     end; try assumption; method; assumption).
Qed.

End containers_preserve.

Lemma preserving_Length_dict Length : preserving_iface (Length_dict Length).
Proof.
  intros W ops Q HM s H. apply Dict_preserves; [exact HM| |exact H].
  constructor; [apply preserving_Integer|constructor].
Qed.

Lemma Stream_preserves {W} (ops : io.Writer W) (Q : encodeState W -> Prop)
    (HM : methods_preserve ops Q) Length Data s :
  Q s -> Q (Stream_encode ops Length Data s).1.
Proof.
  intros H. unfold Stream_encode. fold (Length_dict Length).
  pose proof (nested_preserves ops Q HM (Length_dict Length) s
                (preserving_Length_dict Length) H) as H1.
  destruct (EncodeObject_iface (encodeState_Writer ops) s (Length_dict Length))
    as [s1 [[e|]|]]; cbn [fst] in H1 |- *; try assumption.
  pose proof (proj1 (proj2 (HM s1 H1)) (LF :: str "stream" ++ [LF])) as H2.
  destruct (WriteString ops (LF :: str "stream" ++ [LF]) s1) as [s2 ?].
  cbn [fst] in H2.
  pose proof (CopyN_preserves ops Q HM Data Length s2 H2) as H3.
  destruct (io.CopyN (Write ops) s2 Data Length) as [s3 [k [e|]]];
    cbn [fst] in H3 |- *; [assumption|].
  pose proof (proj1 (proj2 (HM s3 H3)) (LF :: str "endstream" ++ [LF])) as H4.
  destruct (WriteString ops (LF :: str "endstream" ++ [LF]) s3) as [s4 ?].
  exact H4.
Qed.

Lemma preserving_iface_of o : preserving (encode o) -> preserving_iface (iface o).
Proof. intros H. destruct o; try exact H. exact I. Qed.

Lemma preserving_encode o : preserving (encode o).
Proof.
  induction o using Object_nested_ind; intros W ops Q HM s Hs.
  - exact Hs.
  - exact (Boolean_preserves ops Q HM b s Hs).
  - exact (Integer_preserves ops Q HM i s Hs).
  - exact (Real_preserves ops Q HM t s Hs).
  - exact (LiteralString_preserves ops Q HM t s Hs).
  - exact (HexString_preserves ops Q HM b s Hs).
  - exact (Name_preserves ops Q HM n s Hs).
  - change (encode (Array a) W ops s) with (Array_encode ops (map iface a) s).
    apply Array_preserves; [exact HM| |exact Hs].
    apply Forall_map. eapply Forall_impl; [exact H|].
    intros o. apply preserving_iface_of.
  - change (encode (Dict d) W ops s)
      with (Dict_encode ops (map (fun '(k, v) => (k, iface v)) d) s).
    apply Dict_preserves; [exact HM| |exact Hs].
    apply Forall_map. eapply Forall_impl; [exact H|].
    intros [k v]. apply preserving_iface_of.
  - exact (Stream_preserves ops Q HM l d s Hs).
  - change (encode (Indirect n o) W ops s) with (Indirect_encode ops n (iface o) s).
    apply Indirect_preserves; [exact HM| |exact Hs].
    by apply preserving_iface_of.
  - exact (Reference_preserves ops Q HM r s Hs).
Qed.

(** ** Failures of the underlying writer *)

Section logged_writer.

Context {W : Type} (ops : io.Writer W).

Lemma logged_Write_quiet p (x : W * bool) :
  x.2 = false ->
  (io.Write (logged ops) p x).2.2 = None ->
  (io.Write (logged ops) p x).1.2 = false.
Proof.
  destruct x as [w0 f]. cbn. intros ->.
  destruct (io.Write ops p w0) as [w1 [n [e|]]]; cbn; [discriminate|].
  intros _. reflexivity.
Qed.

Ltac underlying_quiet :=
  match goal with
  | H : (?x).2 = false |- context [io.Write (logged ops) ?p ?x] =>
      let H1 := fresh "HL" in
      pose proof (logged_Write_quiet p x H) as H1;
      destruct (io.Write (logged ops) p x) as [? [? [?|]]]; cbn [fst snd] in H1 |- *
  end.

Lemma Flush_quiet b :
  quiet b -> (bufio.Flush (logged ops) b).2 = None -> quiet (bufio.Flush (logged ops) b).1.
Proof.
  unfold quiet, bufio.Flush. intros H.
  destruct (bufio.err b); [discriminate|].
  destruct (bufio.buf b); [by intros _|].
  underlying_quiet; [discriminate|]. intros _. by apply HL.
Qed.

Lemma direct_quiet p b nn :
  quiet b -> (bufio.direct (logged ops) p b nn).2.2 = None ->
  quiet (bufio.direct (logged ops) p b nn).1.
Proof.
  unfold quiet, bufio.direct. intros H.
  underlying_quiet; [discriminate|]. intros _. by apply HL.
Qed.

Lemma bufio_Write_quiet p b :
  quiet b -> (bufio.Write (logged ops) p b).2.2 = None ->
  quiet (bufio.Write (logged ops) p b).1.
Proof.
  intros H. unfold bufio.Write.
  destruct (bufio.err b); [discriminate|].
  destruct (length p <=? bufio.Available b)%nat; [by intros _|].
  destruct (bufio.buf b) as [|c l]; [by apply direct_quiet|].
  match goal with
  | |- context [bufio.Flush (logged ops) ?b0] =>
      pose proof (Flush_quiet b0 H) as HF;
      destruct (bufio.Flush (logged ops) b0) as [b1 [e|]]; cbn [fst snd] in HF |- *
  end; [discriminate|].
  specialize (HF eq_refl).
  destruct (_ <=? _)%nat; [by intros _|]. by apply direct_quiet.
Qed.

Lemma Flush_err {V} (o : io.Writer V) b :
  (bufio.Flush o b).2 = bufio.err (bufio.Flush o b).1.
Proof.
  unfold bufio.Flush. destruct (bufio.err b) eqn:He; [cbn [fst snd]; congruence|].
  destruct (bufio.buf b); [cbn [fst snd]; congruence|].
  destruct (io.Write o _ _) as [w1 [n [e|]]]; reflexivity.
Qed.

Lemma bufio_WriteByte_quiet c b :
  quiet b -> (bufio.WriteByte (logged ops) c b).2 = None ->
  quiet (bufio.WriteByte (logged ops) c b).1.
Proof.
  intros H. unfold bufio.WriteByte.
  destruct (bufio.err b); [discriminate|].
  destruct (bufio.Available b =? 0)%nat; [|by intros _].
  pose proof (Flush_quiet b H) as HF. pose proof (Flush_err (logged ops) b) as HE.
  destruct (bufio.Flush (logged ops) b) as [b1 [e|]]; cbn [fst snd] in HF, HE |- *.
  - rewrite <- HE. discriminate.
  - intros _. by apply HF.
Qed.

Lemma bufio_WriteRune_quiet r b :
  quiet b -> (bufio.WriteRune (logged ops) r b).2.2 = None ->
  quiet (bufio.WriteRune (logged ops) r b).1.
Proof.
  intros H. unfold bufio.WriteRune.
  destruct ((0 <=? r) && (r <? 128)).
  - pose proof (bufio_WriteByte_quiet (byte_of r) b H) as HB.
    destruct (bufio.WriteByte (logged ops) (byte_of r) b) as [b1 [e|]];
      cbn [fst snd] in HB |- *; [discriminate|]. intros _. by apply HB.
  - destruct (bufio.err b); [discriminate|].
    destruct (bufio.Available b <? 4)%nat; [|by intros _].
    pose proof (Flush_quiet b H) as HF. pose proof (Flush_err (logged ops) b) as HE.
    destruct (bufio.Flush (logged ops) b) as [b1 [e|]]; cbn [fst snd] in HF, HE |- *.
    + rewrite <- HE. discriminate.
    + intros _. by apply HF.
Qed.

Lemma noticed_quiet (s : encodeState (W * bool)) :
  noticed s -> err s = None -> quiet (w s).
Proof.
  unfold noticed, quiet. intros H He.
  destruct (bufio.wr (w s)).2; [|reflexivity]. by destruct (H eq_refl).
Qed.

Lemma noticed_methods : methods_preserve (logged ops) noticed.
Proof.
  intros s H. repeat split.
  - intros p. unfold Write. destruct (err s) eqn:He; [exact H|].
    pose proof (bufio_Write_quiet p (w s) (noticed_quiet s H He)) as HB.
    destruct (bufio.Write (logged ops) p (w s)) as [b1 [n [e|]]];
      cbn [fst snd] in HB |- *; unfold noticed; cbn; [discriminate|].
    intros Hf. rewrite (HB eq_refl) in Hf. discriminate.
  - intros p. unfold WriteString, bufio.WriteString. destruct (err s) eqn:He; [exact H|].
    pose proof (bufio_Write_quiet p (w s) (noticed_quiet s H He)) as HB.
    destruct (bufio.Write (logged ops) p (w s)) as [b1 [n [e|]]];
      cbn [fst snd] in HB |- *; unfold noticed; cbn; [discriminate|].
    intros Hf. rewrite (HB eq_refl) in Hf. discriminate.
  - intros c. unfold WriteByte. destruct (err s) eqn:He; [exact H|].
    pose proof (bufio_WriteByte_quiet c (w s) (noticed_quiet s H He)) as HB.
    destruct (bufio.WriteByte (logged ops) c (w s)) as [b1 [e|]];
      cbn [fst snd] in HB |- *; unfold noticed; cbn; [discriminate|].
    intros Hf. rewrite (HB eq_refl) in Hf. discriminate.
  - intros r. unfold WriteRune. destruct (err s) eqn:He; [exact H|].
    pose proof (bufio_WriteRune_quiet r (w s) (noticed_quiet s H He)) as HB.
    destruct (bufio.WriteRune (logged ops) r (w s)) as [b1 [n [e|]]];
      cbn [fst snd] in HB |- *; unfold noticed; cbn; [discriminate|].
    intros Hf. rewrite (HB eq_refl) in Hf. discriminate.
  - intros name. unfold objName. destruct (_ !! name); exact H.
Qed.

(** If a write to the underlying writer failed during [EncodeObject],
    [EncodeObject] does not return [nil]. *)
Lemma EncodeObject_iface_logged o w0 :
  preserving_iface o ->
  (EncodeObject_iface (logged ops) (w0, false) o).1.2 = true ->
  (EncodeObject_iface (logged ops) (w0, false) o).2 <> Done None.
Proof.
  intros Ho. unfold EncodeObject_iface. destruct o as [e|].
  - set (ew := mkState (bufio.NewWriter (w0, false)) None 0 None).
    assert (H0 : noticed ew) by (intros Hf; discriminate Hf).
    pose proof (Ho _ (logged ops) noticed noticed_methods ew H0) as H1.
    destruct (e _ (logged ops) ew) as [ew1 r]. cbn [fst] in H1.
    destruct r as [[e1|]|]; [destruct (Close _ ew1); discriminate| |
                             destruct (Close _ ew1); discriminate].
    unfold Close. destruct (err ew1) as [e1|] eqn:He1; [discriminate|].
    pose proof (Flush_quiet (w ew1) (noticed_quiet ew1 H1 He1)) as HF.
    destruct (bufio.Flush (logged ops) (w ew1)) as [b1 [e1|]];
      cbn [fst snd w] in HF |- *; [discriminate|].
    intros Hf. rewrite (HF eq_refl) in Hf. discriminate.
  - unfold io.WriteString.
    pose proof (logged_Write_quiet (str "null") (w0, false) eq_refl) as HL.
    destruct (io.Write (logged ops) (str "null") (w0, false)) as [w1 [n [e|]]];
      cbn [fst snd] in HL |- *; [discriminate|].
    intros Hf. rewrite (HL eq_refl) in Hf. discriminate.
Qed.

Lemma EncodeObject_logged obj w0 :
  (EncodeObject (logged ops) (w0, false) obj).1.2 = true ->
  (EncodeObject (logged ops) (w0, false) obj).2 <> Done None.
Proof.
  apply EncodeObject_iface_logged, preserving_iface_of, preserving_encode.
Qed.

End logged_writer.

(** C10.  If a write to the underlying writer fails while [EncodeObject]
    encodes a value, then [EncodeObject], when it returns, returns a
    non-nil error: also for the values whose [encode] method itself
    returns [nil] whatever happens ([LiteralString.encode]) or ignores the
    results of its own writes ([Array.encode], [Dict.encode]). *)
Theorem write_failure_is_returned {W} (ops : io.Writer W) (w0 : W) (obj : Object)
    (Hfailed : (EncodeObject (logged ops) (w0, false) obj).1.2 = true)
    (Hreturns : (EncodeObject (logged ops) (w0, false) obj).2 <> Panic) :
  exists e, (EncodeObject (logged ops) (w0, false) obj).2 = Done (Some e).
Proof.
  pose proof (EncodeObject_logged ops obj w0 Hfailed) as H.
  destruct (EncodeObject (logged ops) (w0, false) obj).2 as [[e|]|].
  - by exists e.
  - by destruct H.
  - by destruct Hreturns.
Qed.

Lemma write_failure_is_returned_witness :
  (EncodeObject (logged (Limited 2)) ([], false) (LiteralString "abc")).1.2 = true
  /\ (EncodeObject (logged (Limited 2)) ([], false) (LiteralString "abc")).2 <> Panic
  /\ exists e,
       (EncodeObject (logged (Limited 2)) ([], false) (LiteralString "abc")).2
       = Done (Some e).
Proof.
  assert (H1 : (EncodeObject (logged (Limited 2)) ([], false) (LiteralString "abc")).1.2
               = true) by (vm_compute; reflexivity).
  assert (H2 : (EncodeObject (logged (Limited 2)) ([], false) (LiteralString "abc")).2
               <> Panic) by (vm_compute; intros H; discriminate H).
  split; [exact H1|]. split; [exact H2|].
  exact (write_failure_is_returned (Limited 2) [] (LiteralString "abc") H1 H2).
Defined.

Example LiteralString_failure :
  LiteralString_encode (logged (Limited 2)) "abc"
    (mkState (bufio.NewWriter ([], false)) None 0 None)
  = (mkState (bufio.mk ([], false) (str "(abc)") None) None 0 None, Done None)
  /\ EncodeObject (logged (Limited 2)) ([], false) (LiteralString "abc")
     = ((str "(a", true), Done (Some (SinkError 0))).
Proof. split; vm_compute; reflexivity. Qed.

(** ** The document driver *)

Lemma Encode_loop_Buffer body :
  forall out, Encode_loop Buffer body out = (out ++ Body_out body, Body_res body).
Proof.
  induction body as [|[name obj] body IH]; intros out; cbn [Encode_loop Body_out Body_res].
  - by rewrite app_nil_r.
  - rewrite EncodeObject_Buffer.
    destruct (outcome (Indirect name obj)) as [[e|]|].
    + by rewrite app_nil_r.
    + rewrite IH. by rewrite <- app_assoc.
    + by rewrite app_nil_r.
Qed.

Lemma Body_all_succeed body :
  Forall (fun '(name, obj) => succeeds (Indirect name obj)) body ->
  Body_out body = concat (map (fun '(name, obj) => rendered (Indirect name obj)) body)
  /\ Body_res body = Done None.
Proof.
  induction 1 as [|[name obj] body Ho Hb [IHo IHr]]; [split; reflexivity|].
  cbn [Body_out Body_res map concat]. rewrite Ho, IHo. split; [reflexivity|exact IHr].
Qed.

Lemma Encode_loop_logged {W} (ops : io.Writer W) body :
  forall w0,
    (Encode_loop (logged ops) body (w0, false)).1.2 = true ->
    (Encode_loop (logged ops) body (w0, false)).2 <> Done None.
Proof.
  induction body as [|[name obj] body IH]; intros w0; cbn [Encode_loop].
  - discriminate.
  - pose proof (EncodeObject_logged ops (Indirect name obj) w0) as HE.
    destruct (EncodeObject (logged ops) (w0, false) (Indirect name obj))
      as [[w1 f] [[e|]|]]; cbn [fst snd] in HE |- *; try discriminate.
    destruct f; [by destruct (HE eq_refl)|]. apply IH.
Qed.

(** C9.  [Encode] writes the header line [%PDF-1.7], then encodes the
    objects of the body in document order, each through [EncodeObject] as
    an [Indirect], then writes the end-of-file marker [%%EOF].  It stops
    at the first object whose encoding returns an error and returns that
    error; and whenever a write to the output fails (the header's, one
    made for an object, the marker's) it does not return [nil]. *)
Theorem Encode_document (p : PDF) :
  Encode Buffer [] (Some p)
  = (str "%PDF-1.7" ++ [LF] ++ Body_out (Body p)
     ++ closing (Body_res (Body p)) (str "%%EOF"),
     Body_res (Body p))
  /\ (Forall (fun '(name, obj) => succeeds (Indirect name obj)) (Body p) ->
      Encode Buffer [] (Some p)
      = (str "%PDF-1.7" ++ [LF]
         ++ concat (map (fun '(name, obj) => rendered (Indirect name obj)) (Body p))
         ++ str "%%EOF", Done None))
  /\ (forall W (ops : io.Writer W) (w0 : W),
        (Encode (logged ops) (w0, false) (Some p)).1.2 = true ->
        (Encode (logged ops) (w0, false) (Some p)).2 <> Done None).
Proof.
  assert (HB : Encode Buffer [] (Some p)
               = (str "%PDF-1.7" ++ [LF] ++ Body_out (Body p)
                  ++ closing (Body_res (Body p)) (str "%%EOF"),
                  Body_res (Body p))).
  { unfold Encode, bw. cbn [io.Write Buffer app].
    change (str "%PDF-" ++ str Version ++ [LF]) with (str "%PDF-1.7" ++ [LF]).
    rewrite Encode_loop_Buffer.
    destruct (Body_res (Body p)) as [[e|]|]; cbn [closing io.WriteString io.Write].
    - by rewrite app_nil_r.
    - by rewrite <- app_assoc.
    - by rewrite app_nil_r. }
  split; [exact HB|]. split.
  - intros Hall. destruct (Body_all_succeed _ Hall) as [Ho Hr].
    rewrite HB, Ho, Hr. reflexivity.
  - intros W ops w0. unfold Encode, bw.
    pose proof (logged_Write_quiet ops (str "%PDF-" ++ str Version ++ [LF]) (w0, false)
                  eq_refl) as HH.
    destruct (io.Write (logged ops) _ (w0, false)) as [[w1 f1] [n [e|]]];
      cbn [fst snd] in HH |- *; [discriminate|].
    rewrite (HH eq_refl).
    pose proof (Encode_loop_logged ops (Body p) w1) as HL.
    destruct (Encode_loop (logged ops) (Body p) (w1, false)) as [[w2 f2] [[e|]|]];
      cbn [fst snd] in HL |- *; try discriminate.
    destruct f2; [by destruct (HL eq_refl)|].
    unfold io.WriteString.
    pose proof (logged_Write_quiet ops (str "%%EOF") (w2, false) eq_refl) as HM.
    destruct (io.Write (logged ops) (str "%%EOF") (w2, false)) as [[w3 f3] [k [e|]]];
      cbn [fst snd] in HM |- *; [discriminate|].
    intros Hf. rewrite (HM eq_refl) in Hf. discriminate.
Qed.

Lemma Encode_document_witness :
  Forall (fun '(name, obj) => succeeds (Indirect name obj))
    [("Catalog"%string, Dict [("Type"%string, Name "Catalog")]); ("n"%string, Integer 7)]
  /\ Encode Buffer []
       (Some {| Body := [("Catalog"%string, Dict [("Type"%string, Name "Catalog")]);
                         ("n"%string, Integer 7)] |})
     = (str "%PDF-1.7" ++ [LF]
        ++ str "0 0 obj" ++ [LF] ++ str "<<" ++ [LF] ++ str "/Type /Catalog" ++ [LF]
        ++ str ">>" ++ [LF] ++ str "endobj" ++ [LF]
        ++ str "0 0 obj" ++ [LF] ++ str "7" ++ [LF] ++ str "endobj" ++ [LF]
        ++ str "%%EOF", Done None)
  /\ (Encode (logged (Limited 12)) ([], false)
        (Some {| Body := [("Catalog"%string, Dict [("Type"%string, Name "Catalog")]);
                          ("n"%string, Integer 7)] |})).1.2 = true
  /\ (Encode (logged (Limited 12)) ([], false)
        (Some {| Body := [("Catalog"%string, Dict [("Type"%string, Name "Catalog")]);
                          ("n"%string, Integer 7)] |})).2 <> Done None.
Proof.
  set (p := {| Body := [("Catalog"%string, Dict [("Type"%string, Name "Catalog")]);
                        ("n"%string, Integer 7)] |}).
  assert (H1 : Forall (fun '(name, obj) => succeeds (Indirect name obj)) (Body p)).
  { repeat constructor. }
  assert (H2 : (Encode (logged (Limited 12)) ([], false) (Some p)).1.2 = true)
    by (vm_compute; reflexivity).
  split; [exact H1|].
  split; [exact (proj1 (proj2 (Encode_document p)) H1)|].
  split; [exact H2|].
  exact (proj2 (proj2 (Encode_document p)) bytes (Limited 12) [] H2).
Defined.

(** ** The first error sticks *)

Lemma perform_records_error {W} (ops : io.Writer W) c0 s0 s e :
  perform ops c0 s0 = (s, Some e) -> err s = Some e.
Proof.
  destruct c0 as [buf|text|c|r]; unfold perform.
  - unfold Write. destruct (err s0) eqn:He0; [congruence|].
    destruct (bufio.Write ops buf (w s0)) as [b1 [n e1]]. intros [= <- ->]. reflexivity.
  - unfold WriteString. destruct (err s0) eqn:He0; [congruence|].
    destruct (bufio.WriteString ops text (w s0)) as [b1 [n e1]]. intros [= <- ->].
    reflexivity.
  - unfold WriteByte. destruct (err s0) eqn:He0; [congruence|].
    destruct (bufio.WriteByte ops c (w s0)) as [b1 e1]. intros [= <- ->]. reflexivity.
  - unfold WriteRune. destruct (err s0) eqn:He0; [congruence|].
    destruct (bufio.WriteRune ops r (w s0)) as [b1 [n e1]]. intros [= <- ->].
    reflexivity.
Qed.

Lemma perform_after_error {W} (ops : io.Writer W) c s e :
  err s = Some e -> perform ops c s = (s, Some e).
Proof.
  intros He. destruct c; unfold perform, Write, WriteString, WriteByte, WriteRune;
    rewrite He; reflexivity.
Qed.

Lemma perform_all_after_error {W} (ops : io.Writer W) cs s e :
  err s = Some e ->
  perform_all ops cs s = (s, map (fun _ => Some e) cs).
Proof.
  intros He. induction cs as [|c cs IH]; [reflexivity|].
  cbn [perform_all map]. by rewrite (perform_after_error ops c s e He), IH.
Qed.

(** C2.  Once a write on an encode state has failed with [e], every later
    [Write], [WriteString], [WriteByte] and [WriteRune] on that state
    leaves the state as it is (so nothing reaches the output and the
    recorded error stays [e]) and returns [e], and so does [Close]. *)
Theorem first_error_sticks {W} (ops : io.Writer W) (c0 : call)
    (s0 s : encodeState W) (e : error)
    (Hfailed : perform ops c0 s0 = (s, Some e)) :
  err s = Some e
  /\ (forall buf, Write ops buf s = (s, (0%nat, Some e)))
  /\ (forall text, WriteString ops text s = (s, (0%nat, Some e)))
  /\ (forall c, WriteByte ops c s = (s, Some e))
  /\ (forall r, WriteRune ops r s = (s, (0%nat, Some e)))
  /\ Close ops s = (s, Some e)
  /\ (forall cs, perform_all ops cs s = (s, map (fun _ => Some e) cs)).
Proof.
  pose proof (perform_records_error ops c0 s0 s e Hfailed) as He.
  split; [exact He|].
  unfold Write, WriteString, WriteByte, WriteRune, Close. rewrite He.
  repeat (split; [reflexivity|]).
  intros cs. by apply perform_all_after_error.
Qed.

Lemma first_error_sticks_witness :
  let s0 := mkState (bufio.mk [] (repeat "a"%char 4096) None) None 0 None in
  let s := mkState (bufio.mk [] (repeat "a"%char 4096) (Some (SinkError 0)))
             (Some (SinkError 0)) 0 None in
  perform (Limited 0) (call_WriteByte "b"%char) s0 = (s, Some (SinkError 0))
  /\ Close (Limited 0) s = (s, Some (SinkError 0))
  /\ WriteByte (Limited 0) "c"%char s = (s, Some (SinkError 0)).
Proof.
  intros s0 s.
  assert (H : perform (Limited 0) (call_WriteByte "b"%char) s0 = (s, Some (SinkError 0)))
    by (vm_compute; reflexivity).
  pose proof (first_error_sticks (Limited 0) _ s0 s _ H) as (_ & _ & _ & HB & _ & HC & _).
  split; [exact H|]. split; [exact HC|exact (HB "c"%char)].
Defined.

(** ** Identifiers in order of first appearance *)

Lemma int_wrap_small z : - 2 ^ 63 <= z < 2 ^ 63 -> int_wrap z = z.
Proof. intros H. unfold int_wrap. rewrite Z.mod_small; lia. Qed.

Lemma first_seen_prefix l : forall d, exists d', first_seen d l = d ++ d'.
Proof.
  induction l as [|x l IH]; intros d; cbn [first_seen].
  - exists []. by rewrite app_nil_r.
  - destruct (decide (x ∈ d)); [apply IH|].
    destruct (IH (d ++ [x])) as [d' ->]. exists ([x] ++ d'). by rewrite app_assoc.
Qed.

Lemma index_in_app d d' x : x ∈ d -> index_in (d ++ d') x = index_in d x.
Proof.
  induction d as [|y d IH]; intros Hx; [by apply elem_of_nil in Hx|].
  cbn [app index_in]. destruct (decide (x = y)); [reflexivity|].
  apply elem_of_cons in Hx as [?|Hx]; [done|]. by rewrite IH.
Qed.

Lemma index_in_fresh d x : x ∉ d -> index_in (d ++ [x]) x = length d.
Proof.
  induction d as [|y d IH]; intros Hx; cbn [app index_in length].
  - by rewrite decide_True.
  - apply not_elem_of_cons in Hx as [Hne Hx].
    rewrite decide_False by exact Hne. by rewrite IH.
Qed.

Lemma first_seen_NoDup l : forall d, NoDup d -> NoDup (first_seen d l).
Proof.
  induction l as [|x l IH]; intros d Hd; cbn [first_seen]; [exact Hd|].
  destruct (decide (x ∈ d)); [by apply IH|].
  apply IH. apply NoDup_app. split; [exact Hd|]. split.
  - intros y Hy Hyx. apply list_elem_of_singleton in Hyx. by subst.
  - apply NoDup_singleton.
Qed.

Lemma objName_absent {W} (s : encodeState W) name :
  table_of s !! name = None ->
  objName name s
  = (mkState (w s) (err s) (int_wrap (nextName s + 1))
       (Some (<[name := nextName s]> (table_of s))), nextName s).
Proof.
  unfold objName, table_of. destruct (names s) as [m|]; cbn; by intros ->.
Qed.

Lemma objName_present {W} (s : encodeState W) name id :
  table_of s !! name = Some id ->
  objName name s = (mkState (w s) (err s) (nextName s) (Some (table_of s)), id).
Proof.
  unfold objName, table_of. destruct (names s) as [m|]; cbn; by intros ->.
Qed.

Lemma objName_numbered {W} (d : list string) (s : encodeState W) x :
  numbered d s ->
  Z.of_nat (length (first_seen d [x])) < 2 ^ 63 ->
  (objName x s).2 = Z.of_nat (index_in (first_seen d [x]) x)
  /\ numbered (first_seen d [x]) (objName x s).1.
Proof.
  intros [Hn Hm] Hlen. cbn [first_seen] in *. pose proof (Hm x) as Hx.
  destruct (decide (x ∈ d)) as [Hin|Hnin].
  - rewrite (objName_present s x _ Hx). cbn [fst snd].
    split; [reflexivity|]. split; [exact Hn|exact Hm].
  - rewrite (objName_absent s x Hx). cbn [fst snd].
    rewrite index_in_fresh by exact Hnin. split; [exact Hn|].
    rewrite length_app in *. cbn [length] in *. split.
    + cbn [nextName]. rewrite length_app. cbn [length]. rewrite int_wrap_small; lia.
    + intros y. unfold table_of. cbn [names default from_option id]. fold (table_of s).
      destruct (decide (y = x)) as [->|Hne].
      * rewrite lookup_insert_eq, decide_True by set_solver.
        rewrite index_in_fresh by exact Hnin. by rewrite Hn.
      * rewrite lookup_insert_ne by done. rewrite Hm.
        destruct (decide (y ∈ d)) as [Hy|Hy].
        -- rewrite decide_True by set_solver. by rewrite index_in_app.
        -- rewrite decide_False; [reflexivity|].
           intros Hin. apply elem_of_app in Hin as [Hin|Hin]; [done|].
           by apply list_elem_of_singleton in Hin.
Qed.

Lemma objNames_numbered {W} l :
  forall (d : list string) (s : encodeState W),
    numbered d s ->
    Z.of_nat (length (first_seen d l)) < 2 ^ 63 ->
    (objNames l s).2 = map (fun x => Z.of_nat (index_in (first_seen d l) x)) l.
Proof.
  induction l as [|x l IH]; intros d s Hs Hlen; [reflexivity|].
  cbn [objNames map].
  assert (Hd1 : first_seen d (x :: l) = first_seen (first_seen d [x]) l).
  { cbn [first_seen]. by destruct (decide (x ∈ d)). }
  destruct (first_seen_prefix l (first_seen d [x])) as [d' Hd'].
  assert (Hlen1 : Z.of_nat (length (first_seen d [x])) < 2 ^ 63).
  { rewrite Hd1, Hd', length_app in Hlen. lia. }
  destruct (objName_numbered d s x Hs Hlen1) as [Hid Hs1].
  destruct (objName x s) as [s1 id]. cbn [fst snd] in Hid, Hs1.
  rewrite Hd1 in Hlen |- *. specialize (IH _ s1 Hs1 Hlen).
  destruct (objNames l s1) as [s2 ids]. cbn [snd] in IH |- *.
  rewrite IH, Hid. f_equal. rewrite Hd'. rewrite index_in_app; [reflexivity|].
  cbn [first_seen]. destruct (decide (x ∈ d)); set_solver.
Qed.

(** C5.  [objName] on one encode state: a name that is not in the table
    gets the next sequential id and is inserted, a name that is in the
    table gets the id it has and the table stays as it is; the call only
    touches the table.  Starting from the empty table of a fresh state,
    the ids handed out are 0, 1, 2, ... in the order in which the names
    first appear, whatever asked for them. *)
Theorem objName_resolves {W} (b : bufio.Writer W) (l : list string)
    (Hl : Z.of_nat (length (first_seen [] l)) < 2 ^ 63) :
  (objNames l (mkState b None 0 None)).2
  = map (fun x => Z.of_nat (index_in (first_seen [] l) x)) l
  /\ NoDup (first_seen [] l)
  /\ (forall (s : encodeState W) name,
        table_of s !! name = None ->
        objName name s
        = (mkState (w s) (err s) (int_wrap (nextName s + 1))
             (Some (<[name := nextName s]> (table_of s))), nextName s))
  /\ (forall (s : encodeState W) name id,
        table_of s !! name = Some id ->
        objName name s = (mkState (w s) (err s) (nextName s) (Some (table_of s)), id))
  /\ (forall (s : encodeState W) name,
        objName name (objName name s).1 = ((objName name s).1, (objName name s).2)).
Proof.
  split.
  { apply objNames_numbered; [|exact Hl].
    split; [reflexivity|]. intros x. unfold table_of. cbn.
    rewrite lookup_empty. rewrite decide_False; [reflexivity|]. set_solver. }
  split; [apply first_seen_NoDup, NoDup_nil_2|].
  split; [intros s name; apply objName_absent|].
  split; [intros s name id; apply objName_present|].
  intros s name. destruct (table_of s !! name) as [id|] eqn:Hx.
  - rewrite (objName_present s name id Hx). cbn [fst snd].
    rewrite (objName_present (mkState (w s) (err s) (nextName s) (Some (table_of s)))
               name id Hx).
    reflexivity.
  - rewrite (objName_absent s name Hx). cbn [fst snd].
    rewrite (objName_present _ name (nextName s)); [reflexivity|].
    unfold table_of. cbn. apply lookup_insert_eq.
Qed.

Lemma objName_resolves_witness :
  Z.of_nat (length (first_seen [] ["Pages"; "Catalog"; "Pages"; "Font"]%string)) < 2 ^ 63
  /\ (objNames ["Pages"; "Catalog"; "Pages"; "Font"]%string
        (mkState (bufio.NewWriter ([] : bytes)) None 0 None)).2
     = [0; 1; 0; 2].
Proof.
  assert (H : Z.of_nat (length (first_seen [] ["Pages"; "Catalog"; "Pages"; "Font"]%string))
              < 2 ^ 63) by (vm_compute; reflexivity).
  split; [exact H|].
  exact (proj1 (objName_resolves (bufio.NewWriter ([] : bytes))
                  ["Pages"; "Catalog"; "Pages"; "Font"]%string H)).
Defined.

(** * Further properties of the encoder *)

(** ** Literal strings *)




(** ** Hexadecimal strings read back *)

Lemma unhex_digits c :
  byte_of (16 * hex_value (fmt.upper_hex_digit (byte_val c / 16))
           + hex_value (fmt.upper_hex_digit (byte_val c `mod` 16))) = c.
Proof. destruct c as [[] [] [] [] [] [] [] []]; vm_compute; reflexivity. Qed.

Lemma unhex_bytes_X b : unhex (fmt.bytes_X b) = b.
Proof.
  induction b as [|c b IH]; [reflexivity|].
  unfold fmt.bytes_X in *. cbn [flat_map app unhex]. by rewrite unhex_digits, IH.
Qed.

(** Reading the digit pairs of an encoded [HexString] back gives its
    bytes: the encoding loses nothing. *)
Theorem HexString_round_trip (b : bytes) :
  exists digits,
    EncodeObject Buffer [] (HexString b) = (str "<" ++ digits ++ str ">", Done None)
    /\ unhex digits = b.
Proof.
  exists (fmt.bytes_X b). destruct (rendered_HexString b) as [Hr Ho].
  rewrite EncodeObject_Buffer, Hr, Ho. split; [reflexivity|].
  apply unhex_bytes_X.
Qed.

(** ** Integers read back *)

Lemma to_int_proper z : Z.to_int z <> Decimal.Pos Decimal.Nil
                        /\ Z.to_int z <> Decimal.Neg Decimal.Nil.
Proof.
  destruct z as [|p|p]; cbn; split; try discriminate;
    intros H; injection H as H; exact (DecimalPos.Unsigned.to_uint_nonnil _ H).
Qed.

(** [Integer.encode] writes the decimal numeral of the integer: reading
    the output as a decimal numeral gives the integer back. *)
Theorem Integer_round_trip (i : Z) :
  EncodeObject Buffer [] (Integer i) = (fmt.int_v i, Done None)
  /\ parse_int (fmt.int_v i) = Some i.
Proof.
  destruct (rendered_of_renders _ _ _ _ _ (renders_Integer i 0 None)) as [Hr Ho].
  split.
  - rewrite EncodeObject_Buffer.
    change (rendered (Integer i)) with (rendered_iface (Integer_obj i)).
    change (outcome (Integer i)) with (outcome_iface (Integer_obj i)).
    by rewrite (proj1 (rendered_Integer i)), (proj2 (rendered_Integer i)).
  - unfold parse_int, fmt.int_v, str.
    rewrite string_of_list_ascii_of_string.
    destruct (to_int_proper i) as [H1 H2].
    rewrite (NilZero.isi _ H1 H2). cbn. by rewrite DecimalZ.of_to.
Qed.

(** ** Composition *)

(** Encoding into a buffer that already holds bytes appends what encoding
    into an empty buffer writes and returns the same; so two encodings
    one after the other write the two renderings one after the other. *)
Theorem EncodeObject_appends (out : bytes) (o1 o2 : Object) :
  EncodeObject Buffer out o1
  = (out ++ (EncodeObject Buffer [] o1).1, (EncodeObject Buffer [] o1).2)
  /\ EncodeObject Buffer (EncodeObject Buffer out o1).1 o2
     = (out ++ (EncodeObject Buffer [] o1).1 ++ (EncodeObject Buffer [] o2).1,
        (EncodeObject Buffer [] o2).2).
Proof.
  split; [apply EncodeObject_Buffer|].
  rewrite (EncodeObject_Buffer out o1). cbn [fst].
  rewrite (EncodeObject_Buffer (out ++ rendered o1) o2).
  unfold rendered, outcome. by rewrite <- app_assoc.
Qed.

(** ** Dictionaries *)

Lemma Dict_all_succeed d :
  Forall (fun kv => succeeds kv.2) d ->
  Dict_res (map (fun '(k, v) => (k, iface v)) d) = Done None
  /\ Dict_out (map (fun '(k, v) => (k, iface v)) d) = concat (map Dict_entry d).
Proof.
  induction 1 as [|[k v] d Hv Hd [IHr IHo]]; [split; reflexivity|].
  cbn [map Dict_res Dict_out concat].
  change (outcome_iface (Name_obj k)) with (outcome (Name k)).
  change (rendered_iface (Name_obj k)) with (rendered (Name k)).
  change (outcome_iface (iface v)) with (outcome v).
  change (rendered_iface (iface v)) with (rendered v).
  rewrite (proj2 (rendered_Name k)). cbn [snd] in Hv. rewrite Hv.
  split; [exact IHr|]. rewrite IHo. unfold Dict_entry. cbn [fst snd app].
  by rewrite <- !app_assoc.
Qed.

(** A dictionary whose values all encode is written as [<<], then for
    every entry, in iteration order, a newline, the key as a name, a
    space and the value, then a newline and [>>]. *)
Theorem Dict_rendering (d : list (string * Object))
    (Hd : Forall (fun kv => succeeds kv.2) d) :
  EncodeObject Buffer [] (Dict d)
  = (str "<<" ++ concat (map Dict_entry d) ++ LF :: str ">>", Done None).
Proof.
  destruct (rendered_Dict d) as [Hr Ho]. destruct (Dict_all_succeed d Hd) as [Hres Hout].
  rewrite EncodeObject_Buffer, Hr, Ho, Hres, Hout. reflexivity.
Qed.

Lemma Dict_rendering_witness :
  Forall (fun kv => succeeds kv.2)
    [("Type"%string, Name "Page"); ("Count"%string, Integer 3)]
  /\ EncodeObject Buffer [] (Dict [("Type"%string, Name "Page"); ("Count"%string, Integer 3)])
     = (str "<<" ++ [LF] ++ str "/Type /Page" ++ [LF] ++ str "/Count 3" ++ [LF]
        ++ str ">>", Done None).
Proof.
  assert (H : Forall (fun kv => succeeds kv.2)
                [("Type"%string, Name "Page"); ("Count"%string, Integer 3)]).
  { repeat constructor. }
  split; [exact H|]. exact (Dict_rendering _ H).
Defined.

(** ** The first element that fails *)

Lemma Array_first_failure pre o post r :
  Forall succeeds pre -> outcome o = r -> r <> Done None ->
  Array_res (map iface (pre ++ o :: post)) = r
  /\ forall spacing,
       Array_out spacing (map iface (pre ++ o :: post))
       = spacing ++ join (str " ") (map rendered (pre ++ [o])).
Proof.
  intros Hpre Ho Hr. induction Hpre as [|x pre Hx Hpre [IHr IHo]].
  - cbn [app map Array_res Array_out join].
    change (outcome_iface (iface o)) with (outcome o).
    change (rendered_iface (iface o)) with (rendered o).
    rewrite Ho. split.
    + by destruct r as [[e|]|].
    + intros spacing. destruct r as [[e|]|]; [|done|]; by rewrite app_nil_r.
  - cbn [app map Array_res Array_out].
    change (outcome_iface (iface x)) with (outcome x).
    change (rendered_iface (iface x)) with (rendered x).
    rewrite Hx. split; [exact IHr|].
    intros spacing. rewrite IHo. destruct pre; reflexivity.
Qed.

(** When an element of an array does not encode, [Array.encode] stops
    there: the elements before it and what the failing element wrote are
    in the output, the elements after it and the closing bracket are not,
    and the element's error (or panic) is the result. *)
Theorem Array_stops_at_first_failure (pre post : list Object) (o : Object)
    (Hpre : Forall succeeds pre) (Ho : outcome o <> Done None) :
  EncodeObject Buffer [] (Array (pre ++ o :: post))
  = (str "[" ++ join (str " ") (map rendered (pre ++ [o])), outcome o).
Proof.
  destruct (rendered_Array (pre ++ o :: post)) as [Hr Hres].
  destruct (Array_first_failure pre o post (outcome o) Hpre eq_refl Ho) as [H1 H2].
  rewrite EncodeObject_Buffer, Hr, Hres, H1, H2. cbn [app].
  destruct (outcome o) as [[e|]|]; [|done|]; cbn [closing]; by rewrite app_nil_r.
Qed.

Lemma Array_stops_at_first_failure_witness :
  Forall succeeds [Integer 1]
  /\ outcome (Stream 5 (str "ab")) <> Done None
  /\ EncodeObject Buffer [] (Array ([Integer 1] ++ Stream 5 (str "ab") :: [Integer 2]))
     = (str "[1 <<" ++ [LF] ++ str "/Length 5" ++ [LF] ++ str ">>" ++ [LF]
        ++ str "stream" ++ [LF] ++ str "ab", Done (Some io_EOF)).
Proof.
  assert (H1 : Forall succeeds [Integer 1]) by (repeat constructor).
  assert (H2 : outcome (Stream 5 (str "ab")) <> Done None)
    by (vm_compute; intros H; discriminate H).
  split; [exact H1|]. split; [exact H2|].
  exact (Array_stops_at_first_failure [Integer 1] [Integer 2] _ H1 H2).
Defined.

(** ** Streams with a negative length *)

(** A negative [Length] copies nothing and is no error: the dictionary
    shows the negative number, the two markers follow each other, and
    the data is not touched. *)
Theorem Stream_negative_length (N : Z) (Data : bytes) (HN : N < 0) :
  EncodeObject Buffer [] (Stream N Data)
  = (str "<<" ++ [LF] ++ str "/Length " ++ fmt.int_v N ++ [LF] ++ str ">>"
     ++ (LF :: str "stream" ++ [LF]) ++ (LF :: str "endstream" ++ [LF]), Done None).
Proof.
  destruct (rendered_Stream N Data) as [Hr Ho].
  rewrite EncodeObject_Buffer, Hr, Ho, (proj1 (rendered_Length_dict N)).
  assert (He : CopyN_err Data N = None).
  { unfold CopyN_err. rewrite Z2Nat.nonpos by lia. rewrite take_0.
    change (Z.of_nat (length (@nil ascii))) with 0.
    destruct (0 =? N) eqn:H0; [apply Z.eqb_eq in H0; lia|].
    destruct (0 <? N) eqn:H1; [apply Z.ltb_lt in H1; lia|]. reflexivity. }
  rewrite He, Z2Nat.nonpos by lia. rewrite take_0.
  repeat first [rewrite <- app_assoc | progress cbn [app]]. reflexivity.
Qed.

Lemma Stream_negative_length_witness :
  -5 < 0
  /\ EncodeObject Buffer [] (Stream (-5) (str "abc"))
     = (str "<<" ++ [LF] ++ str "/Length -5" ++ [LF] ++ str ">>" ++ [LF]
        ++ str "stream" ++ [LF] ++ [LF] ++ str "endstream" ++ [LF], Done None).
Proof.
  split; [lia|]. exact (Stream_negative_length (-5) (str "abc") ltac:(lia)).
Defined.

(** ** Objects and references at the top of an encode pass *)

Lemma objName_table_fresh name :
  objName_table name 0 None = (1, Some {[name := 0]}, 0).
Proof.
  unfold objName_table. rewrite lookup_empty.
  by rewrite insert_empty.
Qed.

Lemma renders_table_free o n m :
  table_free o = true -> renders (encode o) n m (rendered o) n m (outcome o).
Proof.
  destruct o; try discriminate; intros _.
  - rewrite (proj1 (rendered_Boolean b)), (proj2 (rendered_Boolean b)).
    apply renders_Boolean.
  - destruct (rendered_of_renders _ _ _ _ _ (renders_Integer i 0 None)) as [Hr Ho].
    change (rendered (Integer i) = fmt.int_v i) in Hr.
    change (outcome (Integer i) = Done None) in Ho.
    rewrite Hr, Ho. apply renders_Integer.
  - destruct (rendered_of_renders _ _ _ _ _ (renders_Real text 0 None)) as [Hr Ho].
    change (rendered (Real text) = text) in Hr.
    change (outcome (Real text) = Done None) in Ho.
    rewrite Hr, Ho. apply renders_Real.
  - rewrite (proj1 (rendered_LiteralString text)), (proj2 (rendered_LiteralString text)).
    apply renders_LiteralString.
  - rewrite (proj1 (rendered_HexString b)), (proj2 (rendered_HexString b)).
    apply renders_HexString.
  - rewrite (proj1 (rendered_Name n0)), (proj2 (rendered_Name n0)).
    apply renders_Name.
  - rewrite (proj1 (rendered_Array a)), (proj2 (rendered_Array a)).
    change (encode (Array a)) with (fun W ops => @Array_encode W ops (map iface a)).
    apply renders_Array, Forall_map, Forall_forall. intros o _. apply uniform_iface_all.
  - rewrite (proj1 (rendered_Dict d)), (proj2 (rendered_Dict d)).
    change (encode (Dict d))
      with (fun W ops => @Dict_encode W ops (map (fun '(k, v) => (k, iface v)) d)).
    apply renders_Dict, Forall_map, Forall_forall. intros [k v] _. apply uniform_iface_all.
  - rewrite (proj1 (rendered_Stream Length Data)), (proj2 (rendered_Stream Length Data)).
    apply renders_Stream.
Qed.

Lemma rendered_Indirect_table_free name o :
  table_free o = true ->
  rendered (Indirect name o)
  = str "0 0 obj" ++ [LF] ++ rendered o ++ closing (outcome o) (LF :: str "endobj" ++ [LF])
  /\ outcome (Indirect name o) = outcome o.
Proof.
  intros Ho.
  assert (Hout : str "0 0 obj" ++ [LF] ++ rendered o
                 ++ closing (outcome o) (LF :: str "endobj" ++ [LF])
                 = fmt.int_v 0 ++ (str " 0 obj" ++ [LF]) ++ rendered o
                   ++ closing (outcome o) (LF :: str "endobj" ++ [LF])) by reflexivity.
  rewrite Hout.
  pose proof (renders_Indirect name (encode o) 0 None _ _ _ _ _ _ _
                (objName_table_fresh name)
                (renders_table_free o 1 (Some {[name := 0]}) Ho)) as Hr.
  apply rendered_of_renders in Hr.
  destruct o; try discriminate Ho; exact Hr.
Qed.

(** An [Indirect] handed to [EncodeObject] is object 0 whatever its name:
    when its value is not itself an [Indirect] or a [Reference] (and not
    nil), the output is [0 0 obj], the value as [EncodeObject] renders it
    on its own and, if that succeeded, [endobj]; the result is the
    value's. *)
Theorem Indirect_is_object_0 (name : string) (o : Object)
    (Ho : table_free o = true) :
  EncodeObject Buffer [] (Indirect name o)
  = (str "0 0 obj" ++ [LF] ++ (EncodeObject Buffer [] o).1
     ++ closing (EncodeObject Buffer [] o).2 (LF :: str "endobj" ++ [LF]),
     (EncodeObject Buffer [] o).2).
Proof.
  destruct (rendered_Indirect_table_free name o Ho) as [Hr Hres].
  by rewrite EncodeObject_Buffer, Hr, Hres.
Qed.

Lemma Indirect_is_object_0_witness :
  table_free (Array [Reference "Pages"]) = true
  /\ EncodeObject Buffer [] (Indirect "Kids" (Array [Reference "Pages"]))
     = (str "0 0 obj" ++ [LF] ++ str "[0 0 R]" ++ [LF] ++ str "endobj" ++ [LF],
        Done None).
Proof.
  split; [reflexivity|].
  exact (Indirect_is_object_0 "Kids" (Array [Reference "Pages"]) eq_refl).
Defined.

(** An [Indirect] whose [Object] is the nil interface: the object header
    is written and flushed, then the call of [encode] on nil panics. *)
Theorem Indirect_nil_panics (out : bytes) (name : string) :
  EncodeObject Buffer out (Indirect name Nil)
  = (out ++ str "0 0 obj" ++ [LF], Panic).
Proof.
  pose proof (renders_Indirect_nil name 0 None _ _ _ (objName_table_fresh name)) as Hr.
  apply rendered_of_renders in Hr. destruct Hr as [H1 H2].
  assert (H1' : rendered (Indirect name Nil) = fmt.int_v 0 ++ str " 0 obj" ++ [LF])
    by exact H1.
  assert (H2' : outcome (Indirect name Nil) = Panic) by exact H2.
  rewrite EncodeObject_Buffer, H1', H2'. reflexivity.
Qed.

(** A [Reference] directly inside an [Indirect] shares its name table:
    it gets the object's own id 0 when it names the object itself, and
    the next id 1 when it names anything else. *)
Theorem Reference_inside_Indirect (name r : string) :
  EncodeObject Buffer [] (Indirect name (Reference r))
  = (str "0 0 obj" ++ [LF]
     ++ (if decide (r = name) then str "0" else str "1") ++ str " 0 R"
     ++ LF :: str "endobj" ++ [LF], Done None).
Proof.
  assert (Ht : exists n1 m1,
             objName_table r 1 (Some {[name := 0]})
             = (n1, m1, if decide (r = name) then 0 else 1)).
  { unfold objName_table. destruct (decide (r = name)) as [->|Hne].
    - rewrite lookup_singleton_eq. eauto.
    - rewrite lookup_singleton_ne by done. eauto. }
  destruct Ht as (n1 & m1 & Ht).
  pose proof (renders_Indirect name _ 0 None _ _ _ _ _ _ _
                (objName_table_fresh name) (renders_Reference r _ _ _ _ _ Ht)) as Hr.
  apply rendered_of_renders in Hr. destruct Hr as [H1 H2].
  assert (H1' : rendered (Indirect name (Reference r))
                = fmt.int_v 0 ++ (str " 0 obj" ++ [LF])
                  ++ (fmt.int_v (if decide (r = name) then 0 else 1) ++ str " 0 R")
                  ++ closing (Done None) (LF :: str "endobj" ++ [LF])) by exact H1.
  assert (H2' : outcome (Indirect name (Reference r)) = Done None) by exact H2.
  rewrite EncodeObject_Buffer, H1', H2'. f_equal.
  destruct (decide (r = name));
    repeat first [rewrite <- app_assoc | progress cbn [app closing]]; reflexivity.
Qed.

(** ** Documents *)

Lemma Body_table_free body :
  Forall (fun '(name, obj) => table_free obj = true /\ succeeds obj) body ->
  Body_out body = concat (map (fun '(name, obj) => object_0 obj) body)
  /\ Body_res body = Done None.
Proof.
  induction 1 as [|[name obj] body [Ht Hs] Hb [IHo IHr]]; [split; reflexivity|].
  cbn [Body_out Body_res map concat].
  destruct (rendered_Indirect_table_free name obj Ht) as [Hr Hres].
  rewrite Hres, Hr, Hs, IHo. split; [|exact IHr].
  unfold object_0. cbn [closing]. by rewrite <- !app_assoc.
Qed.

(** In a document every body object is written as object 0 and the
    names of the body objects do not show in the output: for a body of
    values that encode and are not themselves [Indirect]s or
    [Reference]s, the document is the header, each value between
    [0 0 obj] and [endobj], and [%%EOF]. *)
Theorem Encode_numbers_every_object_0 (p : PDF)
    (Hp : Forall (fun '(name, obj) => table_free obj = true /\ succeeds obj) (Body p)) :
  Encode Buffer [] (Some p)
  = (str "%PDF-1.7" ++ [LF]
     ++ concat (map (fun '(name, obj) => object_0 obj) (Body p))
     ++ str "%%EOF", Done None).
Proof.
  destruct (Body_table_free _ Hp) as [Ho Hr].
  unfold Encode, bw. cbn [io.Write Buffer app].
  change (str "%PDF-" ++ str Version ++ [LF]) with (str "%PDF-1.7" ++ [LF]).
  rewrite Encode_loop_Buffer, Hr, Ho. cbn [io.WriteString io.Write].
  by rewrite <- app_assoc.
Qed.

Lemma Encode_numbers_every_object_0_witness :
  Forall (fun '(name, obj) => table_free obj = true /\ succeeds obj)
    [("a"%string, Integer 1); ("b"%string, Name "x")]
  /\ Encode Buffer [] (Some {| Body := [("a"%string, Integer 1); ("b"%string, Name "x")] |})
     = (str "%PDF-1.7" ++ [LF]
        ++ str "0 0 obj" ++ [LF] ++ str "1" ++ [LF] ++ str "endobj" ++ [LF]
        ++ str "0 0 obj" ++ [LF] ++ str "/x" ++ [LF] ++ str "endobj" ++ [LF]
        ++ str "%%EOF", Done None).
Proof.
  assert (H : Forall (fun '(name, obj) => table_free obj = true /\ succeeds obj)
                [("a"%string, Integer 1); ("b"%string, Name "x")]).
  { repeat constructor. }
  split; [exact H|].
  exact (Encode_numbers_every_object_0
           {| Body := [("a"%string, Integer 1); ("b"%string, Name "x")] |} H).
Defined.

(** ** The bytes of an encoded name *)

Lemma upper_hex_digit_printable d :
  0 <= d < 16 -> printable (fmt.upper_hex_digit d).
Proof.
  intros Hd.
  assert (H : d = 0 \/ d = 1 \/ d = 2 \/ d = 3 \/ d = 4 \/ d = 5 \/ d = 6 \/ d = 7
              \/ d = 8 \/ d = 9 \/ d = 10 \/ d = 11 \/ d = 12 \/ d = 13 \/ d = 14
              \/ d = 15) by lia.
  repeat (destruct H as [->|H]; [by vm_compute|]). subst d. by vm_compute.
Qed.

Lemma upper_hex_go_printable fuel :
  forall n acc, Forall printable acc -> Forall printable (fmt.upper_hex_go fuel n acc).
Proof.
  induction fuel as [|fuel IH]; intros n acc Hacc; cbn [fmt.upper_hex_go]; [exact Hacc|].
  assert (Hd : printable (fmt.upper_hex_digit (n `mod` 16))).
  { apply upper_hex_digit_printable. apply Z.mod_pos_bound. lia. }
  destruct (n <? 16); [by constructor|]. apply IH. by constructor.
Qed.

Lemma int_X_printable n : Forall printable (fmt.int_X n).
Proof.
  unfold fmt.int_X. destruct (n <? 0).
  - constructor; [by vm_compute|]. apply upper_hex_go_printable. constructor.
  - apply upper_hex_go_printable. constructor.
Qed.

Lemma Name_rune_printable_out r : Forall printable (Name_rune r).
Proof.
  unfold Name_rune.
  destruct ((r <? 33) || (126 <? r)) eqn:Hout.
  - constructor; [by vm_compute|]. apply int_X_printable.
  - destruct (r =? 35); [repeat constructor; by vm_compute|].
    apply orb_false_iff in Hout as [H1 H2].
    apply Z.ltb_ge in H1. apply Z.ltb_ge in H2.
    unfold rune_bytes.
    replace ((0 <=? r) && (r <? 128)) with true
      by (symmetry; apply andb_true_iff; split; [apply Z.leb_le|apply Z.ltb_lt]; lia).
    constructor; [|constructor].
    unfold printable, byte_val, byte_of. rewrite N_ascii_embedding.
    + rewrite Z2N.id; lia.
    + apply N2Z.inj_lt. rewrite Z2N.id; lia.
Qed.

(** Whatever bytes a name holds, [Name.encode] succeeds and writes only
    printable ASCII characters (['!'..'~']): no space, no control
    character and no byte above [0x7E] reaches the output. *)
Theorem Name_output_is_printable (x : string) :
  (EncodeObject Buffer [] (Name x)).2 = Done None
  /\ Forall printable (EncodeObject Buffer [] (Name x)).1.
Proof.
  destruct (rendered_Name x) as [Hr Ho].
  rewrite EncodeObject_Buffer, Hr, Ho. cbn [fst snd app].
  split; [reflexivity|].
  constructor; [by vm_compute|]. clear Hr Ho.
  induction (utf8.range x) as [|r rs IH]; [constructor|].
  cbn [flat_map]. apply Forall_app. split; [apply Name_rune_printable_out|exact IH].
Qed.

(** A byte that is not the start of a well-formed UTF-8 sequence is read
    as the replacement character: a name that is one byte [0x80..0xFF]
    is written as [/#FFFD] whichever byte it is. *)
Theorem Name_ill_formed_byte (c : ascii) (Hc : 128 <= byte_val c) :
  EncodeObject Buffer [] (Name (String c "")) = (str "/#FFFD", Done None).
Proof.
  destruct c as [[] [] [] [] [] [] [] []];
    first [ by vm_compute | exfalso; revert Hc; by vm_compute ].
Qed.

Lemma Name_ill_formed_byte_witness :
  128 <= byte_val (byte_of 255)
  /\ EncodeObject Buffer [] (Name (String (byte_of 255) "")) = (str "/#FFFD", Done None).
Proof.
  assert (H : 128 <= byte_val (byte_of 255)) by (vm_compute; intros H; discriminate H).
  split; [exact H|]. exact (Name_ill_formed_byte (byte_of 255) H).
Defined.

(** ** [Close] *)

Lemma Flush_done {W} (ops : io.Writer W) b :
  (bufio.Flush ops b).2 = None ->
  bufio.err (bufio.Flush ops b).1 = None /\ bufio.buf (bufio.Flush ops b).1 = [].
Proof.
  unfold bufio.Flush. destruct (bufio.err b) eqn:He; [discriminate|].
  destruct (bufio.buf b) eqn:Hb; [by intros _|].
  destruct (io.Write ops _ _) as [w1 [n [e|]]]; cbn; [discriminate|]. by intros _.
Qed.

(** Closing twice is closing once: the second [Close] returns what the
    first returned and leaves the state, the underlying writer included,
    as the first left it. *)
Theorem Close_idempotent {W} (ops : io.Writer W) (s : encodeState W) :
  Close ops (Close ops s).1 = ((Close ops s).1, (Close ops s).2).
Proof.
  unfold Close at 2 3 4. destruct (err s) as [e|] eqn:He.
  - cbn [fst snd]. unfold Close. by rewrite He.
  - pose proof (Flush_done ops (w s)) as HF.
    destruct (bufio.Flush ops (w s)) as [b [e|]]; cbn [fst snd] in HF |- *.
    + reflexivity.
    + destruct (HF eq_refl) as [Hbe Hbb].
      unfold Close, bufio.Flush. cbn [err w]. by rewrite Hbe, Hbb.
Qed.

(** ** Distinct names, distinct ids *)

Lemma first_seen_keeps l : forall seen x, x ∈ seen -> x ∈ first_seen seen l.
Proof.
  induction l as [|y l IH]; intros seen x Hx; cbn [first_seen]; [exact Hx|].
  destruct (decide (y ∈ seen)); apply IH; [exact Hx|].
  apply elem_of_app. by left.
Qed.

Lemma first_seen_covers l : forall seen x, x ∈ l -> x ∈ first_seen seen l.
Proof.
  induction l as [|y l IH]; intros seen x Hx; [by apply elem_of_nil in Hx|].
  cbn [first_seen]. apply elem_of_cons in Hx as [->|Hx].
  - destruct (decide (y ∈ seen)); apply first_seen_keeps; [done|].
    apply elem_of_app. right. by apply list_elem_of_singleton.
  - destruct (decide (y ∈ seen)); by apply IH.
Qed.

Lemma index_in_lookup d x : x ∈ d -> d !! index_in d x = Some x.
Proof.
  induction d as [|y d IH]; intros Hx; [by apply elem_of_nil in Hx|].
  cbn [index_in]. destruct (decide (x = y)) as [->|Hne]; [reflexivity|].
  apply elem_of_cons in Hx as [?|Hx]; [done|]. by apply IH.
Qed.

(** From the empty table of a fresh state, two calls of [objName] return
    the same id exactly when they ask for the same name, and every id is
    below the number of distinct names asked for. *)
Theorem objName_ids_distinct {W} (b : bufio.Writer W) (l : list string)
    (i j : nat) (x y : string)
    (Hl : Z.of_nat (length (first_seen [] l)) < 2 ^ 63)
    (Hi : l !! i = Some x) (Hj : l !! j = Some y) :
  ((objNames l (mkState b None 0 None)).2 !! i
   = (objNames l (mkState b None 0 None)).2 !! j <-> x = y)
  /\ exists id, (objNames l (mkState b None 0 None)).2 !! i = Some id
                /\ 0 <= id < Z.of_nat (length (first_seen [] l)).
Proof.
  assert (Hfresh : numbered [] (mkState b None 0 None)).
  { split; [reflexivity|]. intros z. unfold table_of. cbn.
    rewrite lookup_empty. rewrite decide_False; [reflexivity|]. apply not_elem_of_nil. }
  rewrite (objNames_numbered l [] _ Hfresh Hl), !list_lookup_fmap, Hi, Hj.
  cbn [fmap option_fmap option_map].
  assert (Hx : x ∈ first_seen [] l)
    by (apply first_seen_covers, list_elem_of_lookup; eauto).
  assert (Hy : y ∈ first_seen [] l)
    by (apply first_seen_covers, list_elem_of_lookup; eauto).
  pose proof (index_in_lookup _ _ Hx) as Lx. pose proof (index_in_lookup _ _ Hy) as Ly.
  split.
  - split; [|by intros ->]. intros [= H]. apply Nat2Z.inj in H.
    rewrite H in Lx. congruence.
  - eexists. split; [reflexivity|]. apply lookup_lt_Some in Lx. lia.
Qed.

Lemma objName_ids_distinct_witness :
  Z.of_nat (length (first_seen [] ["a"; "b"; "a"]%string)) < 2 ^ 63
  /\ ["a"; "b"; "a"]%string !! 0%nat = Some "a"%string
  /\ ["a"; "b"; "a"]%string !! 2%nat = Some "a"%string
  /\ (objNames ["a"; "b"; "a"]%string (mkState (bufio.NewWriter ([] : bytes)) None 0 None)).2
     !! 0%nat
     = (objNames ["a"; "b"; "a"]%string
          (mkState (bufio.NewWriter ([] : bytes)) None 0 None)).2 !! 2%nat.
Proof.
  assert (H : Z.of_nat (length (first_seen [] ["a"; "b"; "a"]%string)) < 2 ^ 63)
    by (vm_compute; reflexivity).
  split; [exact H|]. split; [reflexivity|]. split; [reflexivity|].
  exact (proj2 (proj1 (objName_ids_distinct (bufio.NewWriter ([] : bytes))
                         ["a"; "b"; "a"]%string 0 2 "a" "a" H eq_refl eq_refl))
           eq_refl).
Defined.

(** ** Which values encode *)








(** ** Nothing is written after a failed write *)

Section guarded_writer.

Context {W : Type} (ops : io.Writer W).

Lemma on_guard_clear (b : bufio.Writer (guard W)) :
  on_guard b -> bufio.err b = None -> failed (bufio.wr b) = false.
Proof.
  intros [_ H] He. destruct (failed (bufio.wr b)); [|reflexivity].
  by destruct (H eq_refl).
Qed.

Lemma guarded_Write p (g : guard W) :
  late g = false -> failed g = false ->
  late (io.Write (guarded ops) p g).1 = false
  /\ (failed (io.Write (guarded ops) p g).1 = true ->
      (io.Write (guarded ops) p g).2.2 <> None).
Proof.
  intros Hl Hf. cbn. destruct (io.Write ops p (inner g)) as [w1 [n [e|]]]; cbn.
  - rewrite Hl, Hf. split; [reflexivity|discriminate].
  - rewrite Hl, Hf. split; [reflexivity|discriminate].
Qed.

Ltac guarded_step H He :=
  match goal with
  | |- context [io.Write (guarded ops) ?p ?g] =>
      let HG := fresh "HG" in
      pose proof (guarded_Write p g (proj1 H) (on_guard_clear _ H He)) as HG;
      destruct (io.Write (guarded ops) p g) as [? [? [?|]]]; cbn [fst snd] in HG |- *
  end.

Lemma Flush_on_guard (b : bufio.Writer (guard W)) :
  on_guard b -> on_guard (bufio.Flush (guarded ops) b).1.
Proof.
  intros H. unfold bufio.Flush. destruct (bufio.err b) eqn:He; [exact H|].
  destruct (bufio.buf b); [exact H|].
  guarded_step H He; destruct HG as [HG1 HG2]; split; cbn; assumption.
Qed.

Lemma direct_on_guard p (b : bufio.Writer (guard W)) nn :
  on_guard b -> bufio.err b = None -> on_guard (bufio.direct (guarded ops) p b nn).1.
Proof.
  intros H He. unfold bufio.direct.
  guarded_step H He; destruct HG as [HG1 HG2]; split; cbn; assumption.
Qed.

Lemma buffered_on_guard (b : bufio.Writer (guard W)) buf' :
  on_guard b -> bufio.err b = None -> on_guard (bufio.mk (bufio.wr b) buf' None).
Proof.
  intros H He. split; [exact (proj1 H)|]. cbn. intros Hf.
  rewrite (on_guard_clear b H He) in Hf. discriminate.
Qed.

Lemma bufio_Write_on_guard p (b : bufio.Writer (guard W)) :
  on_guard b -> on_guard (bufio.Write (guarded ops) p b).1.
Proof.
  intros H. unfold bufio.Write. destruct (bufio.err b) eqn:He; [exact H|].
  destruct (length p <=? bufio.Available b)%nat; [by apply buffered_on_guard|].
  destruct (bufio.buf b) as [|c l]; [by apply direct_on_guard|].
  match goal with
  | |- context [bufio.Flush (guarded ops) ?b0] =>
      pose proof (Flush_on_guard b0 (buffered_on_guard b _ H He)) as HF;
      pose proof (Flush_err (guarded ops) b0) as HE;
      destruct (bufio.Flush (guarded ops) b0) as [b1 [e|]]; cbn [fst snd] in HF, HE |- *
  end; [exact HF|].
  destruct (_ <=? _)%nat; [by apply buffered_on_guard|]. by apply direct_on_guard.
Qed.

Lemma bufio_WriteByte_on_guard c (b : bufio.Writer (guard W)) :
  on_guard b -> on_guard (bufio.WriteByte (guarded ops) c b).1.
Proof.
  intros H. unfold bufio.WriteByte. destruct (bufio.err b) eqn:He; [exact H|].
  destruct (bufio.Available b =? 0)%nat; [|by apply buffered_on_guard].
  pose proof (Flush_on_guard b H) as HF. pose proof (Flush_err (guarded ops) b) as HE.
  destruct (bufio.Flush (guarded ops) b) as [b1 [e|]]; cbn [fst snd] in HF, HE |- *;
    [exact HF|].
  rewrite <- HE. by apply buffered_on_guard.
Qed.

Lemma bufio_WriteRune_on_guard r (b : bufio.Writer (guard W)) :
  on_guard b -> on_guard (bufio.WriteRune (guarded ops) r b).1.
Proof.
  intros H. unfold bufio.WriteRune. destruct ((0 <=? r) && (r <? 128)).
  - pose proof (bufio_WriteByte_on_guard (byte_of r) b H) as HB.
    destruct (bufio.WriteByte (guarded ops) (byte_of r) b) as [b1 [e|]]; exact HB.
  - destruct (bufio.err b) eqn:He; [exact H|].
    destruct (bufio.Available b <? 4)%nat; [|by apply buffered_on_guard].
    pose proof (Flush_on_guard b H) as HF. pose proof (Flush_err (guarded ops) b) as HE.
    destruct (bufio.Flush (guarded ops) b) as [b1 [e|]]; cbn [fst snd] in HF, HE |- *;
      [exact HF|].
    rewrite <- HE. by apply buffered_on_guard.
Qed.

Lemma on_guard_methods :
  methods_preserve (guarded ops) (fun s => on_guard (w s)).
Proof.
  intros s H. split; [|split; [|split; [|split]]].
  - intros p. unfold Write. destruct (err s); [exact H|].
    pose proof (bufio_Write_on_guard p (w s) H) as HB.
    destruct (bufio.Write (guarded ops) p (w s)) as [b1 [n e]]; exact HB.
  - intros p. unfold WriteString, bufio.WriteString. destruct (err s); [exact H|].
    pose proof (bufio_Write_on_guard p (w s) H) as HB.
    destruct (bufio.Write (guarded ops) p (w s)) as [b1 [n e]]; exact HB.
  - intros c. unfold WriteByte. destruct (err s); [exact H|].
    pose proof (bufio_WriteByte_on_guard c (w s) H) as HB.
    destruct (bufio.WriteByte (guarded ops) c (w s)) as [b1 e]; exact HB.
  - intros r. unfold WriteRune. destruct (err s); [exact H|].
    pose proof (bufio_WriteRune_on_guard r (w s) H) as HB.
    destruct (bufio.WriteRune (guarded ops) r (w s)) as [b1 [n e]]; exact HB.
  - intros name. unfold objName. destruct (_ !! name); exact H.
Qed.

End guarded_writer.

(** After a write to the underlying writer has failed, [EncodeObject]
    makes no further write to it: whatever the value, and however deep
    the encoding was when the failure came, nothing is attempted on a
    writer that has already reported an error. *)
Theorem no_write_after_failure {W} (ops : io.Writer W) (w0 : W) (obj : Object) :
  late (EncodeObject (guarded ops) (mkGuard w0 false false) obj).1 = false.
Proof.
  unfold EncodeObject, EncodeObject_iface.
  destruct (iface obj) as [e|] eqn:Hi.
  - apply iface_Some in Hi. subst e.
    set (ew := mkState (bufio.NewWriter (mkGuard w0 false false)) None 0 None).
    assert (H0 : on_guard (w ew)) by (split; [reflexivity|discriminate]).
    pose proof (preserving_encode obj _ (guarded ops) _ (on_guard_methods ops) ew H0) as H1.
    destruct (encode obj _ (guarded ops) ew) as [ew1 r]. cbn [fst] in H1.
    unfold Close. destruct (err ew1); cbn [fst]; [exact (proj1 H1)|].
    pose proof (Flush_on_guard ops (w ew1) H1) as HF.
    destruct (bufio.Flush (guarded ops) (w ew1)) as [b1 e1]. exact (proj1 HF).
  - unfold io.WriteString.
    pose proof (guarded_Write ops (str "null") (mkGuard w0 false false) eq_refl eq_refl)
      as [HG _].
    destruct (io.Write (guarded ops) (str "null") (mkGuard w0 false false))
      as [g1 [n e]]. exact HG.
Qed.

Example guarded_Limited :
  EncodeObject (guarded (Limited 3)) (mkGuard [] false false)
    (Array [Integer 12345; Name "x"; LiteralString "y"])
  = (mkGuard (str "[12") true false, Done (Some (SinkError 0))).
Proof. vm_compute. reflexivity. Qed.
